(** * KMapSolver: the Karnaugh-map grid of [src/app/page.tsx]

    A shallow embedding of the grid computation performed by the React
    component [KMapGrid] and of its helpers [graySequence] and
    [toBitsString], followed by the properties of the grid: Gray-code
    ordering of the axes, the cell/minterm bijection, the cell
    classification and the implicant overlay.

    JavaScript numbers are modelled as [Z] (every number the component
    receives is an integer); the bitwise operators work on 32-bit signed
    integers and their wrap-around is written out in [Module JS].
    Implicant objects live in a store and are named by references, so that
    [Array.prototype.indexOf], which compares object identities, is
    modelled as it behaves.

    The reading of the two text fields ([parseList]) and the validation
    that [run] performs before it calls the solver are embedded as well,
    up to the request: the solver, the page state and the clipboard are
    outside the model. *)

From Stdlib Require Import ZArith List Lia Bool String Ascii Permutation Sorted.
Import ListNotations.
Local Open Scope Z_scope.

(** ** JavaScript primitives used by the component *)

Module JS.

(** ToInt32: reduction of an integer to the signed 32-bit range. *)
Definition toInt32 (z : Z) : Z := (z + 2 ^ 31) mod 2 ^ 32 - 2 ^ 31.

(** [a << b]: the shift count is taken modulo 32, the result wraps. *)
Definition shl (a b : Z) : Z := toInt32 (Z.shiftl (toInt32 a) (b mod 32)).

(** [a >> b]: sign-propagating right shift. *)
Definition sar (a b : Z) : Z := Z.shiftr (toInt32 a) (b mod 32).

(** [a ^ b] and [a | b] on the 32-bit signed readings of the operands. *)
Definition bxor (a b : Z) : Z := Z.lxor (toInt32 a) (toInt32 b).
Definition bor (a b : Z) : Z := Z.lor (toInt32 a) (toInt32 b).

(** [a % b] is the truncated remainder. *)
Definition rem (a b : Z) : Z := Z.rem a b.

(** [Math.floor (a / b)] on integers. *)
Definition floorDiv (a b : Z) : Z := a / b.

(** A function body completes normally with a value or abruptly with a
    thrown error. *)
Inductive Completion (A : Type) : Type :=
| Normal (v : A)
| Throw (msg : string).
Arguments Normal {A} v.
Arguments Throw {A} msg.

(** [xs.includes(m)] on an array of numbers. *)
Definition includes (xs : list Z) (m : Z) : bool := existsb (Z.eqb m) xs.

(** [xs.filter(p)]: one pass from index 0, pushing the kept elements. *)
Fixpoint filter_loop {A : Type} (p : A -> bool) (xs out : list A) : list A :=
  match xs with
  | [] => out
  | x :: rest => filter_loop p rest (if p x then out ++ [x] else out)
  end.
Definition filter {A : Type} (p : A -> bool) (xs : list A) : list A :=
  filter_loop p xs [].

(** [xs.indexOf(x)]: the first index holding [x], or -1. *)
Fixpoint indexOf_from {A : Type} (eqb : A -> A -> bool) (x : A)
         (xs : list A) (k : Z) : Z :=
  match xs with
  | [] => -1
  | y :: rest => if eqb y x then k else indexOf_from eqb x rest (k + 1)
  end.
Definition indexOf {A : Type} (eqb : A -> A -> bool) (xs : list A) (x : A) : Z :=
  indexOf_from eqb x xs 0.

(** [xs[i]]: [None] stands for [undefined]. *)
Definition index {A : Type} (xs : list A) (i : Z) : option A :=
  if i <? 0 then None else nth_error xs (Z.to_nat i).

(** [xs.slice(start, end)] and [xs.slice(start)], with negative
    positions counted from the end. *)
Definition relIndex (k len : Z) : Z :=
  if k <? 0 then Z.max (len + k) 0 else Z.min k len.
Definition slice {A : Type} (xs : list A) (s e : Z) : list A :=
  let len := Z.of_nat (List.length xs) in
  let s' := relIndex s len in
  let e' := relIndex e len in
  firstn (Z.to_nat (e' - s')) (skipn (Z.to_nat s') xs).
Definition sliceFrom {A : Type} (xs : list A) (s : Z) : list A :=
  slice xs s (Z.of_nat (List.length xs)).

(** [n.toString(2)] on an integer: binary digits, most significant
    first, no leading zero, a minus sign for negative numbers. *)
Fixpoint posToString2 (p : positive) : string :=
  match p with
  | xH => "1"
  | xO q => posToString2 q ++ "0"
  | xI q => posToString2 q ++ "1"
  end.
Definition toString2 (n : Z) : string :=
  match n with
  | Z0 => "0"
  | Zpos p => posToString2 p
  | Zneg p => "-" ++ posToString2 p
  end.

(** [s.padStart(width, c)] with a one-character filler. *)
Fixpoint replicate (k : nat) (c : ascii) : string :=
  match k with
  | O => EmptyString
  | S k' => String c (replicate k' c)
  end.
Definition padStart (s : string) (width : Z) (c : ascii) : string :=
  let len := Z.of_nat (String.length s) in
  if width <=? len then s else replicate (Z.to_nat (width - len)) c ++ s.

(** [xs.join(sep)] on an array of strings. *)
Definition join (sep : string) (xs : list string) : string :=
  String.concat sep xs.

End JS.

(** ** The helpers of the component *)

Definition GROUP_RING_CLASSES : list string :=
  [ "ring-2 ring-emerald-400/70";
    "ring-2 ring-sky-400/70";
    "ring-2 ring-violet-400/70";
    "ring-2 ring-amber-400/70";
    "ring-2 ring-rose-400/70" ]%string.

(** The [for] loop of [graySequence]: [fuel] bounds the number of
    iterations, the loop test is the one of the source. *)
Fixpoint graySequence_loop (fuel : nat) (len i : Z) (out : list Z) : list Z :=
  match fuel with
  | O => out
  | S fuel' =>
      if i <? len
      then graySequence_loop fuel' len (i + 1) (out ++ [JS.bxor i (JS.sar i 1)])
      else out
  end.

Definition graySequence (bits : Z) : list Z :=
  if bits <=? 0 then [0]
  else
    let len := JS.shl 1 bits in
    graySequence_loop (Z.to_nat len) len 0 [].

Definition toBitsString (n width : Z) : string :=
  JS.padStart (JS.toString2 n) width "0"%char.

(** ** The component [KMapGrid] *)

(** Implicant objects are held in a store and named by references: two
    entries of the [implicants] array are the same object exactly when
    their references are equal. *)
Definition Ref := nat.

Record Implicant := { bits : string; covered : list Z }.

Definition Store := Ref -> Implicant.

Record KMapGridProps := {
  numInputs : Z;
  minterms : list Z;
  dontCares : list Z;
  implicants : list Ref
}.

(** The cell values ['0'], ['1'] and ['X']. *)
Inductive CellValue := Val0 | Val1 | ValX.

Definition valueForMinterm (p : KMapGridProps) (m : Z) : CellValue :=
  if JS.includes (minterms p) m then Val1
  else if JS.includes (dontCares p) m then ValX
  else Val0.

(** What the body of the inner [colGray.map] computes for one cell. *)
Record Cell := {
  cellRowGray : Z;
  cellColGray : Z;
  minterm : Z;
  cellVal : CellValue;
  coveringGroups : list Ref;
  firstGroupIndex : Z;
  groupRingClass : option string;
  bitString : string;
  groupsLabel : string
}.

Definition renderCell (st : Store) (p : KMapGridProps) (colVars rg cg : Z) : Cell :=
  let minterm := JS.bor (JS.shl rg colVars) cg in
  let cellVal := valueForMinterm p minterm in
  let coveringGroups :=
    JS.filter (fun imp => JS.includes (covered (st imp)) minterm) (implicants p) in
  let firstGroupIndex :=
    match coveringGroups with
    | first :: _ => JS.indexOf Nat.eqb (implicants p) first
    | [] => -1
    end in
  let groupRingClass :=
    if 0 <=? firstGroupIndex
    then JS.index GROUP_RING_CLASSES
           (JS.rem firstGroupIndex (Z.of_nat (List.length GROUP_RING_CLASSES)))
    else Some EmptyString in
  let bitString := toBitsString minterm (numInputs p) in
  let groupsLabel :=
    match coveringGroups with
    | _ :: _ => JS.join ", " (map (fun imp => bits (st imp)) coveringGroups)
    | [] => "None"%string
    end in
  {| cellRowGray := rg; cellColGray := cg; minterm := minterm;
     cellVal := cellVal; coveringGroups := coveringGroups;
     firstGroupIndex := firstGroupIndex; groupRingClass := groupRingClass;
     bitString := bitString; groupsLabel := groupsLabel |}.

(** The rendered grid: the axis data, the column labels, and one entry
    per row holding the row label and the cells of the row.  The legend
    drawn under the grid is presentation only and is left out. *)
Record Grid := {
  rowVars : Z;
  colVars : Z;
  rows : Z;
  cols : Z;
  rowGray : list Z;
  colGray : list Z;
  allVars : list string;
  rowLabelsVars : list string;
  colLabelsVars : list string;
  colLabels : list string;
  gridRows : list (string * list Cell)
}.

Definition KMapGrid (st : Store) (p : KMapGridProps) : JS.Completion (option Grid) :=
  if (numInputs p <? 2) || (6 <? numInputs p) then JS.Normal None
  else
    let rowVars := JS.floorDiv (numInputs p) 2 in
    let colVars := numInputs p - rowVars in
    let rows := JS.shl 1 rowVars in
    let cols := JS.shl 1 colVars in
    let rowGray := graySequence rowVars in
    let colGray := graySequence colVars in
    let allVars := JS.slice ["A"; "B"; "C"; "D"; "E"; "F"]%string 0 (numInputs p) in
    let rowLabelsVars := JS.slice allVars 0 rowVars in
    let colLabelsVars := JS.sliceFrom allVars rowVars in
    JS.Normal (Some
      {| rowVars := rowVars; colVars := colVars; rows := rows; cols := cols;
         rowGray := rowGray; colGray := colGray;
         allVars := allVars; rowLabelsVars := rowLabelsVars;
         colLabelsVars := colLabelsVars;
         colLabels := map (fun g => toBitsString g colVars) colGray;
         gridRows :=
           map (fun rg =>
                  (toBitsString rg rowVars,
                   map (fun cg => renderCell st p colVars rg cg) colGray))
               rowGray |}).

(** All cells of a grid, rows in order, then columns in order. *)
Definition gridCells (g : Grid) : list Cell := flat_map snd (gridRows g).

(** ** Vocabulary of the properties *)

(** The rows of [g] are the ones the component renders from the store
    [st] and the props [p] along the two Gray sequences of [g]. *)
Definition rowsRendered (st : Store) (p : KMapGridProps) (g : Grid) : Prop :=
  gridRows g =
    map (fun rg => (toBitsString rg (rowVars g),
                    map (fun cg => renderCell st p (colVars g) rg cg) (colGray g)))
        (rowGray g).

(** The integers [0, 1, ..., len - 1]. *)
Definition zrange (len : Z) : list Z := map Z.of_nat (seq 0 (Z.to_nat len)).

(** The Gray value of a position. *)
Definition grayOf (i : Z) : Z := Z.lxor i (Z.shiftr i 1).

(** Two integers differ in exactly one bit: there is one bit position
    where their binary digits differ, and they agree at every other. *)
Definition differ_in_one_bit (a b : Z) : Prop :=
  exists j, 0 <= j /\
    forall t, 0 <= t -> (Z.testbit a t <> Z.testbit b t <-> t = j).

(** The character of a binary digit. *)
Definition bitChar (b : bool) : ascii := if b then "1"%char else "0"%char.

(** The binary representation of [m] on [n] digits, most significant
    first: the digit at position [i] from the left is bit [n - 1 - i]. *)
Definition binaryDigits (m n : Z) : string :=
  string_of_list_ascii
    (map (fun i => bitChar (Z.testbit m (n - 1 - Z.of_nat i))) (seq 0 (Z.to_nat n))).

(** The same digits, produced from the most significant one down. *)
Fixpoint digitsMSB (m : Z) (k : nat) : string :=
  match k with
  | O => EmptyString
  | S k' => String (bitChar (Z.testbit m (Z.of_nat k'))) (digitsMSB m k')
  end.

(** The value denoted by a string of binary digits, read left to right. *)
Fixpoint binaryValue_from (acc : Z) (s : string) : Z :=
  match s with
  | EmptyString => acc
  | String c rest => binaryValue_from (2 * acc + (if Ascii.eqb c "1" then 1 else 0)) rest
  end.
Definition binaryValue (s : string) : Z := binaryValue_from 0 s.

(** The indexes of the implicants whose [covered] list contains [m], in
    ascending order, as the specification words it. *)
Definition coveringImplicantIndexes (st : Store) (imps : list Ref) (m : Z) : list nat :=
  List.filter
    (fun i => match nth_error imps i with
              | Some r => JS.includes (covered (st r)) m
              | None => false
              end)
    (seq 0 (List.length imps)).

(** An example store and example inputs. *)
Definition exampleStore : Store :=
  fun r =>
    match r with
    | O => {| bits := "00"; covered := [0] |}
    | 1%nat => {| bits := "11"; covered := [3] |}
    | 2%nat => {| bits := "-1"; covered := [1; 3] |}
    | _ => {| bits := "1-0"; covered := [99] |}
    end.

(** The example store with the out-of-range entry of object 3 removed. *)
Definition examplePurgedStore : Store :=
  fun r =>
    match r with
    | 3%nat => {| bits := "1-0"; covered := [] |}
    | _ => exampleStore r
    end.

Definition exampleProps : KMapGridProps :=
  {| numInputs := 2; minterms := [0; 3]; dontCares := [];
     implicants := [0%nat; 1%nat] |}.

Definition exampleOverlayProps : KMapGridProps :=
  {| numInputs := 2; minterms := [0; 1; 3]; dontCares := [];
     implicants := [0%nat; 1%nat; 2%nat] |}.

Definition exampleDontCareProps : KMapGridProps :=
  {| numInputs := 2; minterms := []; dontCares := [1; 2]; implicants := [] |}.

Definition exampleOverlapProps : KMapGridProps :=
  {| numInputs := 2; minterms := [1]; dontCares := [1; 2]; implicants := [] |}.

Definition exampleMalformedProps : KMapGridProps :=
  {| numInputs := 2; minterms := [0; 3]; dontCares := [];
     implicants := [3%nat] |}.

(** The cell drawn at row [ri] and column [ci] of the grid. *)
Definition cellAt (g : Grid) (ri ci : nat) : option Cell :=
  match nth_error (gridRows g) ri with
  | Some row => nth_error (snd row) ci
  | None => None
  end.

(** The label drawn in front of row [ri]. *)
Definition rowLabelAt (g : Grid) (ri : nat) : option string :=
  option_map fst (nth_error (gridRows g) ri).

(** The cells of a grid that show the value [v]. *)
Definition CellValue_eqb (a b : CellValue) : bool :=
  match a, b with
  | Val0, Val0 | Val1, Val1 | ValX, ValX => true
  | _, _ => false
  end.

Definition cellsWithValue (v : CellValue) (g : Grid) : list Cell :=
  List.filter (fun c => CellValue_eqb (cellVal c) v) (gridCells g).

(** [m] is a minterm index of a function of [n] variables. *)
Definition inDomain (n m : Z) : bool := (0 <=? m) && (m <? 2 ^ n).

(** ** The input fields of the page: [parseList] and [run]

    Strings are sequences of UTF-16 code units; the model covers the code
    units 0..255, written as [ascii].  A JavaScript number is either not a
    number, an infinity, or finite; every finite number met here is an
    integer, and the two zeros [+0] and [-0], which the page never tells
    apart, are both [Finite 0]. *)

Module JSString.

(** The white space and line terminator code units below 256: tab, line
    feed, vertical tab, form feed, carriage return, space, no-break
    space. *)
Definition isWhiteSpace (c : ascii) : bool :=
  let n := nat_of_ascii c in
  Nat.eqb n 9 || Nat.eqb n 10 || Nat.eqb n 11 || Nat.eqb n 12 || Nat.eqb n 13
  || Nat.eqb n 32 || Nat.eqb n 160.

Fixpoint trimStart (s : string) : string :=
  match s with
  | EmptyString => EmptyString
  | String c rest => if isWhiteSpace c then trimStart rest else s
  end.

Fixpoint trimEnd (s : string) : string :=
  match s with
  | EmptyString => EmptyString
  | String c rest =>
      match trimEnd rest with
      | EmptyString => if isWhiteSpace c then EmptyString else String c EmptyString
      | kept => String c kept
      end
  end.

(** [s.trim()]. *)
Definition trim (s : string) : string := trimEnd (trimStart s).

(** [s.split(sep)] with a one-character separator: the pieces between
    the separators, one piece (the whole string) when there is none. *)
Fixpoint split (sep : ascii) (s : string) : list string :=
  match s with
  | EmptyString => [EmptyString]
  | String c rest =>
      if Ascii.eqb c sep then EmptyString :: split sep rest
      else match split sep rest with
           | piece :: pieces => String c piece :: pieces
           | [] => [String c EmptyString]
           end
  end.

End JSString.

Inductive Number := NaN | PosInfinity | NegInfinity | Finite (z : Z).

(** [-x]. *)
Definition negate (x : Number) : Number :=
  match x with
  | NaN => NaN
  | PosInfinity => NegInfinity
  | NegInfinity => PosInfinity
  | Finite z => Finite (- z)
  end.

(** [Number.isFinite(x)]. *)
Definition isFinite (x : Number) : bool :=
  match x with
  | Finite _ => true
  | _ => false
  end.

(** [Number.isInteger(m)] on a finite integer. *)
Definition isInteger (m : Z) : bool := true.

(** The value of a decimal digit. *)
Definition digitValue (c : ascii) : option Z :=
  let n := nat_of_ascii c in
  if Nat.leb 48 n && Nat.leb n 57 then Some (Z.of_nat (n - 48)) else None.

(** The integer written by the longest prefix of decimal digits of [s];
    [acc] is [None] until a digit has been read. *)
Fixpoint digitsPrefix (s : string) (acc : option Z) : option Z :=
  match s with
  | EmptyString => acc
  | String c rest =>
      match digitValue c with
      | Some d =>
          digitsPrefix rest
            (Some (10 * (match acc with Some a => a | None => 0 end) + d))
      | None => acc
      end
  end.

(** [parseInt(s, 10)]: leading white space is skipped, one sign is
    read, then the longest run of decimal digits; without a digit the
    result is [NaN].  [toNumber] is the conversion of the integer read to
    a JavaScript number: the identity up to [2 ^ 53], the nearest double
    or an infinity beyond. *)
Definition parseInt10 (toNumber : Z -> Number) (s : string) : Number :=
  let s1 := JSString.trimStart s in
  let '(negative, s2) :=
    match s1 with
    | String c rest =>
        if Ascii.eqb c "-" then (true, rest)
        else if Ascii.eqb c "+" then (false, rest)
        else (false, s1)
    | EmptyString => (false, s1)
    end in
  match digitsPrefix s2 None with
  | None => NaN
  | Some mathInt => if negative then negate (toNumber mathInt) else toNumber mathInt
  end.

(** The integers held by an array of finite numbers. *)
Fixpoint finiteValues (xs : list Number) : list Z :=
  match xs with
  | [] => []
  | Finite z :: rest => z :: finiteValues rest
  | _ :: rest => finiteValues rest
  end.

Definition parseList (toNumber : Z -> Number) (s : string) : list Z :=
  match JSString.trim s with
  | EmptyString => []
  | _ =>
      finiteValues
        (JS.filter isFinite
           (map (fun x => parseInt10 toNumber (JSString.trim x))
                (JSString.split "," s)))
  end.

(** [Math.max(first, ...rest)]. *)
Definition mathMax (first : Z) (rest : list Z) : Z := fold_left Z.max rest first.

(** What [run] does with the two text fields: it reports one of its two
    errors, or sends the request to the solver.  The error texts are not
    modelled; the out-of-range error carries the two numbers it prints
    (the suggested number of inputs, a floating-point logarithm, is left
    out). *)
Inductive RunOutcome :=
| NotNonNegative
| IndexOutOfRange (maxIndex maxAllowed : Z)
| Request (numInputs : Z) (minterms dontCares : list Z).

Definition run (toNumber : Z -> Number) (numInputs : Z)
           (minterms dontCares : string) : RunOutcome :=
  let mts := parseList toNumber minterms in
  let dcs := parseList toNumber dontCares in
  let all := mts ++ dcs in
  if existsb (fun m => negb (isInteger m) || (m <? 0)) all then NotNonNegative
  else
    match all with
    | [] => Request numInputs mts dcs
    | first :: rest =>
        let maxIndex := mathMax first rest in
        let maxAllowed := JS.shl 1 numInputs - 1 in
        if maxAllowed <? maxIndex then IndexOutOfRange maxIndex maxAllowed
        else Request numInputs mts dcs
    end.

Definition numInputOptions : list Z := [2; 3; 4; 5; 6].

(** The props the page passes to [KMapGrid] once the solver has
    answered. *)
Definition pageGridProps (toNumber : Z -> Number) (numInputs : Z)
           (minterms dontCares : string) (selectedImplicants : list Ref)
  : KMapGridProps :=
  {| numInputs := numInputs;
     minterms := parseList toNumber minterms;
     dontCares := parseList toNumber dontCares;
     implicants := selectedImplicants |}.

(** The conversion of a non-negative integer to the nearest double, ties
    to even, with overflow to infinity. *)
Definition roundToDouble (z : Z) : Number :=
  if z <? 2 ^ 53 then Finite z
  else
    let e := Z.log2 z - 52 in
    let q := Z.shiftr z e in
    let r := Z.land z (Z.ones e) in
    let half := 2 ^ (e - 1) in
    let q' := if (half <? r) || ((r =? half) && Z.odd q) then q + 1 else q in
    let v := q' * 2 ^ e in
    if 2 ^ 1024 <=? v then PosInfinity else Finite v.

(** A conversion is exact on the integers every double represents. *)
Definition exactUpTo2p53 (toNumber : Z -> Number) : Prop :=
  forall z, 0 <= z <= 2 ^ 53 -> toNumber z = Finite z.

(** The decimal writing of a non-negative integer. *)
Definition digitChar (d : Z) : ascii := ascii_of_nat (48 + Z.to_nat d).

Fixpoint decimal_fuel (fuel : nat) (n : Z) : string :=
  match fuel with
  | O => EmptyString
  | S fuel' =>
      if n <? 10 then String (digitChar n) EmptyString
      else (decimal_fuel fuel' (n / 10) ++ String (digitChar (n mod 10)) EmptyString)%string
  end.

Definition decimal (n : Z) : string := decimal_fuel (S (Z.to_nat (Z.log2 n))) n.

(** The decimal writing of an integer, with a minus sign when negative. *)
Definition decimalZ (z : Z) : string :=
  if z <? 0 then String "-" (decimal (- z)) else decimal z.

(** Every character of [s] satisfies [q]. *)
Fixpoint allChars (q : ascii -> bool) (s : string) : bool :=
  match s with
  | EmptyString => true
  | String c rest => q c && allChars q rest
  end.

Definition isDigit (c : ascii) : bool :=
  match digitValue c with
  | Some _ => true
  | None => false
  end.

(** [s] is empty or starts with a character that is not a decimal
    digit. *)
Definition noLeadingDigit (s : string) : bool :=
  match s with
  | EmptyString => true
  | String c _ => negb (isDigit c)
  end.

(** * Properties *)

(** ** 32-bit arithmetic on small non-negative integers *)

Lemma toInt32_small z : - 2 ^ 31 <= z < 2 ^ 31 -> JS.toInt32 z = z.
Proof.
  intros H. unfold JS.toInt32. rewrite Z.mod_small; lia.
Qed.

Lemma shl_small a k :
  0 <= a -> 0 <= k < 32 -> a * 2 ^ k < 2 ^ 31 -> JS.shl a k = a * 2 ^ k.
Proof.
  intros Ha Hk Hlt. unfold JS.shl.
  assert (0 < 2 ^ k) by (apply Z.pow_pos_nonneg; lia).
  assert (a < 2 ^ 31) by nia.
  rewrite (toInt32_small a) by lia.
  rewrite (Z.mod_small k) by lia.
  rewrite Z.shiftl_mul_pow2 by lia.
  apply toInt32_small. nia.
Qed.

Lemma pow2_le_30 k : 0 <= k <= 30 -> 0 < 2 ^ k <= 2 ^ 30.
Proof.
  intros H. split.
  - apply Z.pow_pos_nonneg; lia.
  - apply Z.pow_le_mono_r; lia.
Qed.

Lemma shl_one k : 0 <= k <= 30 -> JS.shl 1 k = 2 ^ k.
Proof.
  intros H. pose proof (pow2_le_30 k H).
  rewrite shl_small; lia.
Qed.

Lemma bxor_sar_gray i : 0 <= i < 2 ^ 31 -> JS.bxor i (JS.sar i 1) = grayOf i.
Proof.
  intros H. unfold JS.bxor, JS.sar, grayOf.
  rewrite (toInt32_small i) by lia.
  change (1 mod 32) with 1.
  assert (0 <= Z.shiftr i 1 <= i).
  { rewrite Z.shiftr_div_pow2 by lia. change (2 ^ 1) with 2.
    split; [apply Z.div_pos; lia | apply Z.div_le_upper_bound; lia]. }
  rewrite (toInt32_small (Z.shiftr i 1)) by lia. reflexivity.
Qed.

Lemma graySequence_loop_spec fuel : forall len i out,
  0 <= i -> len < 2 ^ 31 -> fuel = Z.to_nat (len - i) ->
  graySequence_loop fuel len i out =
  out ++ map grayOf (map Z.of_nat (seq (Z.to_nat i) fuel)).
Proof.
  induction fuel as [|fuel IH]; intros len i out Hi Hlen Hfuel; simpl.
  - now rewrite app_nil_r.
  - assert (i < len) by lia.
    destruct (Z.ltb_spec i len) as [_|]; [|lia].
    rewrite IH by lia.
    rewrite bxor_sar_gray by lia.
    rewrite <- app_assoc. simpl.
    rewrite Z2Nat.id by lia.
    replace (Z.to_nat (i + 1)) with (S (Z.to_nat i)) by lia.
    reflexivity.
Qed.

Lemma graySequence_spec k :
  0 <= k <= 30 -> graySequence k = map grayOf (zrange (2 ^ k)).
Proof.
  intros H. unfold graySequence, zrange.
  destruct (Z.leb_spec k 0).
  - replace k with 0 by lia. reflexivity.
  - cbv zeta. rewrite shl_one by lia.
    pose proof (pow2_le_30 k H).
    rewrite graySequence_loop_spec; [reflexivity | lia | | lia].
    change (2 ^ 31) with (2 * 2 ^ 30). lia.
Qed.

(** ** Bits of the Gray value *)
Lemma grayOf_testbit i t :
  0 <= t -> Z.testbit (grayOf i) t = xorb (Z.testbit i t) (Z.testbit i (t + 1)).
Proof.
  intros Ht. unfold grayOf. now rewrite Z.lxor_spec, Z.shiftr_spec.
Qed.

Lemma testbit_above a k t : 0 <= a < 2 ^ k -> k <= t -> Z.testbit a t = false.
Proof.
  intros Ha Hk.
  destruct (Z.eq_dec a 0) as [->|Hne]; [apply Z.testbit_0_l|].
  apply Z.bits_above_log2; [lia|].
  assert (0 <= k).
  { destruct (Z.lt_ge_cases k 0) as [Hneg|]; [|lia].
    rewrite (Z.pow_neg_r 2 k Hneg) in Ha. lia. }
  assert (Z.log2 a < k) by (apply Z.log2_lt_pow2; lia). lia.
Qed.

Lemma lt_pow2_of_bits x k :
  0 <= x -> 0 <= k -> (forall t, k <= t -> Z.testbit x t = false) -> x < 2 ^ k.
Proof.
  intros Hx Hk Hbits.
  destruct (Z.lt_ge_cases x (2 ^ k)) as [|Hge]; [assumption|exfalso].
  assert (0 < 2 ^ k) by (apply Z.pow_pos_nonneg; lia).
  assert (k <= Z.log2 x) by (apply Z.log2_le_pow2; lia).
  pose proof (Z.bit_log2 x ltac:(lia)) as Hb.
  rewrite Hbits in Hb by lia. discriminate.
Qed.

Lemma grayOf_nonneg i : 0 <= i -> 0 <= grayOf i.
Proof.
  intros Hi. unfold grayOf. apply Z.lxor_nonneg.
  rewrite Z.shiftr_nonneg. tauto.
Qed.

Lemma grayOf_range i k : 0 <= i < 2 ^ k -> 0 <= grayOf i < 2 ^ k.
Proof.
  intros Hi.
  assert (0 <= k).
  { destruct (Z.lt_ge_cases k 0) as [Hneg|]; [|lia].
    rewrite (Z.pow_neg_r 2 k Hneg) in Hi. lia. }
  split; [apply grayOf_nonneg; lia|].
  apply lt_pow2_of_bits; [apply grayOf_nonneg; lia | lia |].
  intros t Ht. rewrite grayOf_testbit by lia.
  rewrite !(testbit_above i k) by lia. reflexivity.
Qed.

Lemma grayOf_bits_agree a b k :
  0 <= a < 2 ^ k -> 0 <= b < 2 ^ k -> grayOf a = grayOf b ->
  forall (d : nat) t, k - Z.of_nat d <= t -> Z.testbit a t = Z.testbit b t.
Proof.
  intros Ha Hb Heq d.
  induction d as [|d IH]; intros t Ht.
  - rewrite (testbit_above a k), (testbit_above b k) by lia. reflexivity.
  - destruct (Z.lt_ge_cases t 0) as [Hneg|Hpos].
    + now rewrite !Z.testbit_neg_r.
    + pose proof (f_equal (fun g => Z.testbit g t) Heq) as Hbit.
      cbv beta in Hbit. rewrite !grayOf_testbit in Hbit by lia.
      rewrite (IH (t + 1)) in Hbit by lia.
      destruct (Z.testbit a t), (Z.testbit b t), (Z.testbit b (t + 1));
        simpl in Hbit; congruence.
Qed.

Lemma grayOf_inj a b k :
  0 <= a < 2 ^ k -> 0 <= b < 2 ^ k -> grayOf a = grayOf b -> a = b.
Proof.
  intros Ha Hb Heq. apply Z.bits_inj'. intros t Ht.
  apply (grayOf_bits_agree a b k Ha Hb Heq (Z.to_nat k)). lia.
Qed.

Lemma lxor_double a b (x y : bool) :
  Z.lxor (2 * a + Z.b2z x) (2 * b + Z.b2z y) = 2 * Z.lxor a b + Z.b2z (xorb x y).
Proof.
  apply Z.bits_inj'. intros n Hn. rewrite Z.lxor_spec.
  destruct (Z.eq_dec n 0) as [->|Hne].
  - now rewrite !Z.testbit_0_r.
  - replace n with (Z.succ (n - 1)) by lia.
    rewrite !Z.testbit_succ_r by lia. now rewrite Z.lxor_spec.
Qed.

Lemma lxor_succ_ones i :
  0 <= i -> exists t, 0 <= t /\ Z.lxor i (i + 1) = Z.ones (t + 1).
Proof.
  intros Hi0. generalize Hi0. pattern i.
  apply Z_lt_induction; [clear i Hi0 | exact Hi0].
  intros i IH Hi.
  pose proof (Z.div_mod i 2 ltac:(lia)) as Hdm.
  pose proof (Z.mod_pos_bound i 2 ltac:(lia)) as Hm.
  destruct (Z.eq_dec (i mod 2) 0) as [H0|H1].
  - exists 0. split; [lia|].
    replace (i + 1) with (2 * (i / 2) + Z.b2z true) by (unfold Z.b2z; lia).
    replace i with (2 * (i / 2) + Z.b2z false) at 1 by (unfold Z.b2z; lia).
    rewrite lxor_double, Z.lxor_nilpotent. reflexivity.
  - assert (0 <= i / 2 < i) as Hhalf.
    { split; [apply Z.div_pos; lia | apply Z.div_lt_upper_bound; lia]. }
    destruct (IH (i / 2) Hhalf (proj1 Hhalf)) as [t [Ht Hx]].
    exists (t + 1). split; [lia|].
    replace (i + 1) with (2 * (i / 2 + 1) + Z.b2z false) by (unfold Z.b2z; lia).
    replace i with (2 * (i / 2) + Z.b2z true) at 1 by (unfold Z.b2z; lia).
    rewrite lxor_double, Hx. rewrite !Z.ones_equiv.
    replace (t + 1 + 1) with (Z.succ (t + 1)) by lia.
    rewrite Z.pow_succ_r by lia. unfold Z.b2z, xorb. lia.
Qed.

Lemma grayOf_lxor a b : Z.lxor (grayOf a) (grayOf b) = grayOf (Z.lxor a b).
Proof.
  apply Z.bits_inj'. intros t Ht.
  rewrite Z.lxor_spec, !grayOf_testbit, !Z.lxor_spec by lia.
  destruct (Z.testbit a t), (Z.testbit b t), (Z.testbit a (t + 1)),
    (Z.testbit b (t + 1)); reflexivity.
Qed.

Lemma grayOf_ones t : 0 <= t -> grayOf (Z.ones (t + 1)) = 2 ^ t.
Proof.
  intros Ht. apply Z.bits_inj'. intros n Hn.
  rewrite grayOf_testbit, !Z.testbit_ones_nonneg, Z.pow2_bits_eqb by lia.
  destruct (Z.ltb_spec n (t + 1)), (Z.ltb_spec (n + 1) (t + 1)),
    (Z.eqb_spec t n); simpl; try reflexivity; lia.
Qed.

Lemma grayOf_succ i :
  0 <= i -> exists j, 0 <= j /\ Z.lxor (grayOf i) (grayOf (i + 1)) = 2 ^ j.
Proof.
  intros Hi. destruct (lxor_succ_ones i Hi) as [t [Ht Hx]].
  exists t. split; [assumption|].
  now rewrite grayOf_lxor, Hx, grayOf_ones.
Qed.

Lemma lxor_pow2_differ a b j :
  0 <= j -> Z.lxor a b = 2 ^ j -> differ_in_one_bit a b.
Proof.
  intros Hj Hx. exists j. split; [assumption|]. intros t Ht.
  pose proof (f_equal (fun z => Z.testbit z t) Hx) as Hb. cbv beta in Hb.
  rewrite Z.lxor_spec, Z.pow2_bits_eqb in Hb by lia.
  destruct (Z.eqb_spec j t) as [->|Hne];
    destruct (Z.testbit a t), (Z.testbit b t); simpl in Hb;
    split; intros; try congruence; try lia.
Qed.

(** ** The Gray sequence as a list *)

Lemma zrange_length n : List.length (zrange n) = Z.to_nat n.
Proof. unfold zrange. now rewrite length_map, length_seq. Qed.

Lemma In_zrange x n : In x (zrange n) <-> 0 <= x < n.
Proof.
  unfold zrange. rewrite in_map_iff. split.
  - intros [i [<- Hi]]. apply in_seq in Hi. lia.
  - intros Hx. exists (Z.to_nat x). split; [lia|]. apply in_seq. lia.
Qed.

Lemma NoDup_zrange n : NoDup (zrange n).
Proof.
  unfold zrange. apply NoDup_map_NoDup_ForallPairs; [|apply seq_NoDup].
  intros a b _ _. apply Nat2Z.inj.
Qed.

Lemma nth_zrange i n d : 0 <= i < n -> nth (Z.to_nat i) (zrange n) d = i.
Proof.
  intros Hi. unfold zrange.
  rewrite (nth_indep _ d (Z.of_nat 0)) by (rewrite length_map, length_seq; lia).
  rewrite map_nth, seq_nth by lia. lia.
Qed.

Lemma nth_map_zrange (f : Z -> Z) i n d :
  0 <= i < n -> nth (Z.to_nat i) (map f (zrange n)) d = f i.
Proof.
  intros Hi.
  rewrite (nth_indep _ d (f 0)) by (rewrite length_map, zrange_length; lia).
  now rewrite map_nth, nth_zrange.
Qed.

Lemma gray_zrange_Permutation k :
  0 <= k -> Permutation (map grayOf (zrange (2 ^ k))) (zrange (2 ^ k)).
Proof.
  intros Hk. apply NoDup_Permutation_bis.
  - apply NoDup_map_NoDup_ForallPairs; [|apply NoDup_zrange].
    intros a b Ha Hb. apply In_zrange in Ha, Hb. now apply grayOf_inj with k.
  - now rewrite length_map.
  - intros x Hx. apply in_map_iff in Hx as [i [<- Hi]].
    apply In_zrange in Hi. apply In_zrange. now apply grayOf_range.
Qed.

(** Claim C4, as amended: for every bit-width [k] with [0 <= k <= 30],
    [graySequence k] has length [2 ^ k], its [i]-th element is
    [i XOR (i >> 1)] (the sequence is [[0]] when [k = 0]), it is a
    permutation of the integers of [[0, 2 ^ k)], and the elements at two
    cyclically consecutive positions [i] and [(i + 1) mod 2 ^ k], the pair
    from the last position to the first included, differ in exactly one
    bit.  (When [k = 0] the only position is its own cyclic successor and
    there is no pair to compare.)  The function is total, so it never
    fails. *)
Theorem graySequence_gray k :
  0 <= k <= 30 ->
  Z.of_nat (List.length (graySequence k)) = 2 ^ k
  /\ (forall i, 0 <= i < 2 ^ k ->
        nth (Z.to_nat i) (graySequence k) 0 = Z.lxor i (Z.shiftr i 1))
  /\ (k = 0 -> graySequence k = [0])
  /\ Permutation (graySequence k) (zrange (2 ^ k))
  /\ (forall i, 0 <= i < 2 ^ k -> (i + 1) mod 2 ^ k <> i ->
        differ_in_one_bit
          (nth (Z.to_nat i) (graySequence k) 0)
          (nth (Z.to_nat ((i + 1) mod 2 ^ k)) (graySequence k) 0)).
Proof.
  intros Hk. pose proof (pow2_le_30 k Hk) as Hpow.
  rewrite (graySequence_spec k Hk).
  split; [rewrite length_map, zrange_length; lia|].
  split; [intros i Hi; now rewrite nth_map_zrange|].
  split; [intros ->; reflexivity|].
  split; [apply gray_zrange_Permutation; lia|].
  intros i Hi Hnext.
  pose proof (Z.mod_pos_bound (i + 1) (2 ^ k) ltac:(lia)) as Hmod.
  rewrite !nth_map_zrange by lia.
  destruct (Z.eq_dec (i + 1) (2 ^ k)) as [Hlast|Hmid].
  - (* the pair wrapping from the last element to the first *)
    rewrite Hlast, Z.mod_same by lia.
    assert (1 <= k).
    { destruct (Z.eq_dec k 0) as [->|]; [|lia].
      exfalso. apply Hnext. rewrite Hlast. simpl in *.
      rewrite Z.mod_1_r. change (2 ^ 0) with 1 in Hlast. lia. }
    apply lxor_pow2_differ with (k - 1); [lia|].
    change (grayOf 0) with 0. rewrite Z.lxor_0_r.
    replace i with (Z.ones (k - 1 + 1)).
    + apply grayOf_ones. lia.
    + rewrite Z.ones_equiv. replace (k - 1 + 1) with k by lia. lia.
  - rewrite Z.mod_small by lia.
    destruct (grayOf_succ i ltac:(lia)) as [j [Hj Hx]].
    now apply lxor_pow2_differ with j.
Qed.

Lemma graySequence_gray_witness :
  Z.of_nat (List.length (graySequence 3)) = 2 ^ 3
  /\ Permutation (graySequence 3) (zrange (2 ^ 3)).
Proof.
  pose proof (graySequence_gray 3 ltac:(lia)) as H. tauto.
Defined.

Lemma graySequence_loop_length fuel : forall len i out,
  (List.length (graySequence_loop fuel len i out) <= List.length out + fuel)%nat.
Proof.
  induction fuel as [|fuel IH]; intros len i out; simpl; [lia|].
  destruct (i <? len); [|lia].
  specialize (IH len (i + 1) (out ++ [JS.bxor i (JS.sar i 1)])).
  rewrite length_app in IH. simpl in IH. lia.
Qed.

Lemma toInt32_range z : - 2 ^ 31 <= JS.toInt32 z < 2 ^ 31.
Proof.
  unfold JS.toInt32.
  pose proof (Z.mod_pos_bound (z + 2 ^ 31) (2 ^ 32) ltac:(lia)). lia.
Qed.

(** From the bit-width 31 on, the length is never [2 ^ k]: the loop bound
    is a 32-bit integer. *)
Lemma graySequence_length_above_30 k :
  31 <= k -> Z.of_nat (List.length (graySequence k)) < 2 ^ k.
Proof.
  intros Hk. assert (2 ^ 31 <= 2 ^ k) by (apply Z.pow_le_mono_r; lia).
  unfold graySequence. destruct (Z.leb_spec k 0); [lia|]. cbv zeta.
  pose proof (graySequence_loop_length
                (Z.to_nat (JS.shl 1 k)) (JS.shl 1 k) 0 []) as Hlen.
  pose proof (toInt32_range (Z.shiftl (JS.toInt32 1) (k mod 32))) as Hshl.
  fold (JS.shl 1 k) in Hshl. simpl in Hlen. lia.
Qed.

(** Claim C4 as stated fails for the bit-width 31: [1 << 31] is the
    negative 32-bit integer [-2147483648], the loop body never runs and
    the sequence is empty. *)
Lemma graySequence_wraps_at_31 :
  0 <= 31 /\ graySequence 31 = [] /\
  Z.of_nat (List.length (graySequence 31)) <> 2 ^ 31.
Proof.
  split; [lia|]. split; [vm_compute; reflexivity|].
  vm_compute. discriminate.
Qed.

(** ** The shape of the rendered grid *)

Lemma KMapGrid_valid st p :
  2 <= numInputs p <= 6 ->
  exists g,
    KMapGrid st p = JS.Normal (Some g)
    /\ rowVars g = numInputs p / 2
    /\ colVars g = numInputs p - numInputs p / 2
    /\ rows g = JS.shl 1 (rowVars g)
    /\ cols g = JS.shl 1 (colVars g)
    /\ rowGray g = graySequence (rowVars g)
    /\ colGray g = graySequence (colVars g)
    /\ allVars g = JS.slice ["A"; "B"; "C"; "D"; "E"; "F"]%string 0 (numInputs p)
    /\ rowLabelsVars g = JS.slice (allVars g) 0 (rowVars g)
    /\ colLabelsVars g = JS.sliceFrom (allVars g) (rowVars g)
    /\ rowsRendered st p g.
Proof.
  intros Hn. unfold KMapGrid.
  destruct (Z.ltb_spec (numInputs p) 2); [lia|].
  destruct (Z.ltb_spec 6 (numInputs p)); [lia|].
  cbv zeta. eexists. split; [reflexivity|]. cbn. repeat split.
Qed.

Lemma axis_widths n :
  2 <= n <= 6 -> 1 <= n / 2 <= 3 /\ 1 <= n - n / 2 <= 3.
Proof.
  intros Hn.
  assert (n = 2 \/ n = 3 \/ n = 4 \/ n = 5 \/ n = 6) as Hcases by lia.
  destruct Hcases as [->|[->|[->|[->| ->]]]]; vm_compute; repeat split; discriminate.
Qed.

Lemma gridCells_map st p g :
  rowsRendered st p g ->
  gridCells g =
    flat_map (fun rg => map (fun cg => renderCell st p (colVars g) rg cg) (colGray g))
             (rowGray g).
Proof.
  intros Hrows. unfold rowsRendered in Hrows.
  unfold gridCells. rewrite Hrows. clear Hrows.
  induction (rowGray g) as [|rg rest IH]; simpl; [reflexivity|].
  f_equal. exact IH.
Qed.

Lemma In_gridCells st p g c :
  rowsRendered st p g ->
  In c (gridCells g) <->
  exists rg cg, In rg (rowGray g) /\ In cg (colGray g) /\
                c = renderCell st p (colVars g) rg cg.
Proof.
  intros Hrows. rewrite (gridCells_map st p g Hrows), in_flat_map. split.
  - intros [rg [Hrg Hc]]. apply in_map_iff in Hc as [cg [<- Hcg]]. eauto.
  - intros [rg [cg [Hrg [Hcg ->]]]]. exists rg. split; [assumption|].
    apply in_map_iff. eauto.
Qed.

(** The shift-and-or of a row value and a column value is their
    positional combination. *)
Lemma land_shifted_low a b c :
  0 <= c -> 0 <= b < 2 ^ c -> Z.land (a * 2 ^ c) b = 0.
Proof.
  intros Hc Hb. apply Z.bits_inj'. intros t Ht.
  rewrite Z.land_spec, Z.bits_0.
  destruct (Z.lt_ge_cases t c).
  - now rewrite Z.mul_pow2_bits_low.
  - rewrite (testbit_above b c t) by lia. apply andb_false_r.
Qed.

Lemma shl_bor_combine rg cg r c :
  0 <= r -> 0 <= c -> r + c <= 30 ->
  0 <= rg < 2 ^ r -> 0 <= cg < 2 ^ c ->
  JS.bor (JS.shl rg c) cg = rg * 2 ^ c + cg.
Proof.
  intros Hr Hc Hrc Hrg Hcg.
  assert (0 < 2 ^ c) by (apply Z.pow_pos_nonneg; lia).
  assert (2 ^ r * 2 ^ c <= 2 ^ 30).
  { rewrite <- Z.pow_add_r by lia. apply Z.pow_le_mono_r; lia. }
  assert (rg * 2 ^ c + cg < 2 ^ 30) by nia.
  rewrite shl_small by (try lia; nia).
  unfold JS.bor. rewrite !toInt32_small by (try lia; nia).
  rewrite <- Z.add_lor_land, land_shifted_low by lia. lia.
Qed.

Lemma graySequence_Permutation k :
  0 <= k <= 30 -> Permutation (graySequence k) (zrange (2 ^ k)).
Proof.
  intros Hk. rewrite graySequence_spec by assumption.
  apply gray_zrange_Permutation. lia.
Qed.

Lemma In_graySequence k x :
  0 <= k <= 30 -> In x (graySequence k) -> 0 <= x < 2 ^ k.
Proof.
  intros Hk Hx. rewrite graySequence_spec in Hx by assumption.
  apply in_map_iff in Hx as [i [<- Hi]]. apply In_zrange in Hi.
  now apply grayOf_range.
Qed.

Lemma cell_minterm_combine st p g c :
  2 <= numInputs p <= 6 ->
  rowVars g = numInputs p / 2 ->
  colVars g = numInputs p - numInputs p / 2 ->
  rowGray g = graySequence (rowVars g) ->
  colGray g = graySequence (colVars g) ->
  rowsRendered st p g ->
  In c (gridCells g) ->
  0 <= cellRowGray c < 2 ^ rowVars g /\ 0 <= cellColGray c < 2 ^ colVars g
  /\ In (cellRowGray c) (rowGray g) /\ In (cellColGray c) (colGray g)
  /\ minterm c = JS.bor (JS.shl (cellRowGray c) (colVars g)) (cellColGray c)
  /\ minterm c = cellRowGray c * 2 ^ colVars g + cellColGray c.
Proof.
  intros Hn Hr Hc Hrg Hcg Hrows Hin.
  destruct (axis_widths _ Hn) as [Hrw Hcw]. rewrite <- Hr in Hrw. rewrite <- Hc in Hcw.
  apply (In_gridCells st p g c Hrows) in Hin as [rg [cg [Hi [Hj ->]]]].
  cbn [cellRowGray cellColGray minterm renderCell].
  pose proof Hi as Hi'. pose proof Hj as Hj'.
  rewrite Hrg in Hi'. rewrite Hcg in Hj'.
  apply In_graySequence in Hi'; [|lia]. apply In_graySequence in Hj'; [|lia].
  repeat split; try lia; try assumption.
  apply shl_bor_combine with (rowVars g); lia.
Qed.

(** Claim C7: for every [numInputs] in [[2, 6]] the grid is rendered with
    [rowVars = floor (n / 2)], [colVars = n - rowVars], [rows = 2 ^ rowVars]
    and [cols = 2 ^ colVars], hence [rowVars + colVars = n] and
    [rows * cols = 2 ^ n]; the row axis is labelled with the first [rowVars]
    letters of A..F and the column axis with the next [colVars] letters;
    in every cell the row Gray value is the high part of the minterm index
    (the bits above the low [colVars] bits) and the column Gray value its
    low [colVars] bits. *)
Theorem axis_partition st p :
  2 <= numInputs p <= 6 ->
  exists g,
    KMapGrid st p = JS.Normal (Some g)
    /\ rowVars g = numInputs p / 2
    /\ 2 * rowVars g <= numInputs p < 2 * rowVars g + 2
    /\ colVars g = numInputs p - rowVars g
    /\ rows g = 2 ^ rowVars g
    /\ cols g = 2 ^ colVars g
    /\ rowVars g + colVars g = numInputs p
    /\ rows g * cols g = 2 ^ numInputs p
    /\ rowLabelsVars g =
         firstn (Z.to_nat (rowVars g)) ["A"; "B"; "C"; "D"; "E"; "F"]%string
    /\ colLabelsVars g =
         firstn (Z.to_nat (colVars g))
                (skipn (Z.to_nat (rowVars g)) ["A"; "B"; "C"; "D"; "E"; "F"]%string)
    /\ (forall c, In c (gridCells g) ->
          Z.shiftr (minterm c) (colVars g) = cellRowGray c
          /\ Z.land (minterm c) (Z.ones (colVars g)) = cellColGray c).
Proof.
  intros Hn.
  destruct (KMapGrid_valid st p Hn)
    as [g [Hg [Hr [Hc [Hrows [Hcols [Hrg [Hcg [Hall [Hrl [Hcl Hcells]]]]]]]]]]].
  destruct (axis_widths _ Hn) as [Hrw Hcw].
  exists g. split; [exact Hg|]. split; [exact Hr|].
  split; [rewrite Hr; pose proof (Z.div_mod (numInputs p) 2 ltac:(lia));
          pose proof (Z.mod_pos_bound (numInputs p) 2 ltac:(lia)); lia|].
  split; [lia|].
  assert (rows g = 2 ^ rowVars g) as Hrows2 by (rewrite Hrows; apply shl_one; lia).
  assert (cols g = 2 ^ colVars g) as Hcols2 by (rewrite Hcols; apply shl_one; lia).
  split; [exact Hrows2|]. split; [exact Hcols2|]. split; [lia|].
  split; [rewrite Hrows2, Hcols2, <- Z.pow_add_r by lia; f_equal; lia|].
  split; [|split].
  - rewrite Hrl, Hall, Hr.
    assert (numInputs p = 2 \/ numInputs p = 3 \/ numInputs p = 4 \/
            numInputs p = 5 \/ numInputs p = 6) as Hcases by lia.
    destruct Hcases as [->|[->|[->|[->| ->]]]]; reflexivity.
  - rewrite Hcl, Hall, Hc, Hr.
    assert (numInputs p = 2 \/ numInputs p = 3 \/ numInputs p = 4 \/
            numInputs p = 5 \/ numInputs p = 6) as Hcases by lia.
    destruct Hcases as [->|[->|[->|[->| ->]]]]; reflexivity.
  - intros c Hin.
    destruct (cell_minterm_combine st p g c Hn Hr Hc Hrg Hcg Hcells Hin)
      as [Hrb [Hcb [_ [_ [_ Hm]]]]].
    assert (0 < 2 ^ colVars g) by (apply Z.pow_pos_nonneg; lia).
    rewrite Hm. split.
    + rewrite Z.shiftr_div_pow2 by lia.
      rewrite Z.div_add_l by lia. rewrite Z.div_small by lia. lia.
    + rewrite Z.land_ones by lia.
      rewrite Z.add_comm, Z.mod_add by lia. apply Z.mod_small. lia.
Qed.

Lemma axis_partition_witness :
  exists g, KMapGrid exampleStore exampleProps = JS.Normal (Some g)
            /\ rowVars g + colVars g = 2 /\ rows g * cols g = 2 ^ 2.
Proof.
  destruct (axis_partition exampleStore exampleProps) as [g H].
  - simpl. lia.
  - exists g. simpl in H. tauto.
Defined.

(** ** Enumeration of the cells *)

Lemma seq_offset (k n : nat) : forall s,
  map Z.of_nat (seq (k + s) n) =
  map (fun x => Z.of_nat k + x) (map Z.of_nat (seq s n)).
Proof.
  induction n as [|n IH]; intros s; simpl; [reflexivity|].
  f_equal; [lia|]. rewrite <- IH. f_equal. f_equal. lia.
Qed.

Lemma zrange_app a b :
  0 <= a -> 0 <= b ->
  zrange (a + b) = zrange a ++ map (fun x => a + x) (zrange b).
Proof.
  intros Ha Hb. unfold zrange.
  rewrite Z2Nat.inj_add, seq_app, map_app by lia. f_equal.
  replace (0 + Z.to_nat a)%nat with (Z.to_nat a + 0)%nat by lia.
  rewrite seq_offset, Z2Nat.id by lia. reflexivity.
Qed.

Lemma zrange_product R C :
  0 <= R -> 0 <= C ->
  flat_map (fun rg => map (fun cg => rg * C + cg) (zrange C)) (zrange R) =
  zrange (R * C).
Proof.
  intros HR HC. rewrite <- (Z2Nat.id R HR). clear HR.
  generalize (Z.to_nat R) as n. clear R. intros R. induction R as [|R IH].
  - reflexivity.
  - replace (Z.of_nat (S R)) with (Z.of_nat R + 1) by lia.
    rewrite (zrange_app (Z.of_nat R) 1) by lia.
    rewrite flat_map_app, IH.
    replace ((Z.of_nat R + 1) * C) with (Z.of_nat R * C + C) by lia.
    rewrite zrange_app by lia. f_equal.
    change (zrange 1) with [0]. simpl. rewrite app_nil_r.
    apply map_ext. intros x. lia.
Qed.

Lemma Permutation_flat_map_pointwise {A B : Type} (f h : A -> list B) l :
  (forall x, In x l -> Permutation (f x) (h x)) ->
  Permutation (flat_map f l) (flat_map h l).
Proof.
  induction l as [|x l IH]; intros Hfh; simpl; [constructor|].
  apply Permutation_app.
  - apply Hfh. now left.
  - apply IH. intros y Hy. apply Hfh. now right.
Qed.

Lemma combine_Permutation (rs cs : list Z) r c :
  0 <= r -> 0 <= c ->
  Permutation rs (zrange (2 ^ r)) -> Permutation cs (zrange (2 ^ c)) ->
  Permutation (flat_map (fun rg => map (fun cg => rg * 2 ^ c + cg) cs) rs)
              (zrange (2 ^ (r + c))).
Proof.
  intros Hr Hc Hrs Hcs.
  assert (0 < 2 ^ r) by (apply Z.pow_pos_nonneg; lia).
  assert (0 < 2 ^ c) by (apply Z.pow_pos_nonneg; lia).
  rewrite Z.pow_add_r by lia.
  rewrite <- zrange_product by lia.
  transitivity (flat_map (fun rg => map (fun cg => rg * 2 ^ c + cg) cs) (zrange (2 ^ r))).
  - now apply Permutation_flat_map.
  - apply Permutation_flat_map_pointwise. intros x _. now apply Permutation_map.
Qed.

Lemma map_minterm_gridCells st p g :
  rowsRendered st p g ->
  map minterm (gridCells g) =
  flat_map (fun rg => map (fun cg => JS.bor (JS.shl rg (colVars g)) cg) (colGray g))
           (rowGray g).
Proof.
  intros Hrows. rewrite (gridCells_map st p g Hrows). clear Hrows.
  induction (rowGray g) as [|rg rest IH]; simpl; [reflexivity|].
  rewrite map_app, map_map. f_equal. exact IH.
Qed.

(** Claim C1: for every [numInputs] in [[2, 6]] the cells of the rendered
    grid are the pairs (row Gray value, column Gray value) in row-major
    order, the minterm index of a cell is [(rowGray << colVars) | colGray],
    there are [rows * cols] cells, and their minterm indexes are a
    permutation of the integers of [[0, 2 ^ n)]: every such integer is the
    index of exactly one cell and no cell has an index outside the range. *)
Theorem minterm_bijection st p :
  2 <= numInputs p <= 6 ->
  exists g,
    KMapGrid st p = JS.Normal (Some g)
    /\ map (fun c => (cellRowGray c, cellColGray c)) (gridCells g) =
         list_prod (graySequence (rowVars g)) (graySequence (colVars g))
    /\ (forall c, In c (gridCells g) ->
          minterm c = JS.bor (JS.shl (cellRowGray c) (colVars g)) (cellColGray c))
    /\ Z.of_nat (List.length (gridCells g)) = rows g * cols g
    /\ Permutation (map minterm (gridCells g)) (zrange (2 ^ numInputs p))
    /\ (forall m, 0 <= m < 2 ^ numInputs p ->
          count_occ Z.eq_dec (map minterm (gridCells g)) m = 1%nat)
    /\ (forall c, In c (gridCells g) -> 0 <= minterm c < 2 ^ numInputs p).
Proof.
  intros Hn.
  destruct (KMapGrid_valid st p Hn)
    as [g [Hg [Hr [Hc [Hrows [Hcols [Hrg [Hcg [Hall [Hrl [Hcl Hcells]]]]]]]]]]].
  destruct (axis_widths _ Hn) as [Hrw Hcw]. rewrite <- Hr in Hrw. rewrite <- Hc in Hcw.
  assert (Permutation (map minterm (gridCells g)) (zrange (2 ^ numInputs p))) as Hperm.
  { rewrite (map_minterm_gridCells st p g Hcells).
    replace (numInputs p) with (rowVars g + colVars g) by lia.
    pose proof (graySequence_Permutation (rowVars g) ltac:(lia)) as Hpr.
    pose proof (graySequence_Permutation (colVars g) ltac:(lia)) as Hpc.
    rewrite <- Hrg in Hpr. rewrite <- Hcg in Hpc.
    rewrite <- (combine_Permutation (rowGray g) (colGray g)) by (assumption || lia).
    apply Permutation_flat_map_pointwise. intros rg Hi.
    erewrite map_ext_in; [reflexivity|]. intros cg Hj. cbv beta.
    apply shl_bor_combine with (rowVars g); try lia.
    - apply In_zrange. now apply Permutation_in with (rowGray g).
    - apply In_zrange. now apply Permutation_in with (colGray g). }
  exists g. split; [exact Hg|]. split; [|split; [|split; [|split; [exact Hperm|split]]]].
  - rewrite (gridCells_map st p g Hcells), <- Hrg, <- Hcg. unfold list_prod.
    clear. induction (rowGray g) as [|rg rest IH]; simpl; [reflexivity|].
    rewrite map_app, map_map. f_equal. exact IH.
  - intros c Hin.
    now destruct (cell_minterm_combine st p g c Hn Hr Hc Hrg Hcg Hcells Hin)
      as [_ [_ [_ [_ [Hm _]]]]].
  - rewrite <- (length_map minterm), (Permutation_length Hperm), zrange_length.
    rewrite Hrows, Hcols, !shl_one by lia.
    rewrite <- Z.pow_add_r by lia. replace (rowVars g + colVars g) with (numInputs p) by lia.
    assert (0 < 2 ^ numInputs p) by (apply Z.pow_pos_nonneg; lia). lia.
  - intros m Hm.
    rewrite (proj1 (Permutation_count_occ Z.eq_dec _ _) Hperm).
    apply (proj1 (NoDup_count_occ' Z.eq_dec _) (NoDup_zrange _)).
    now apply In_zrange.
  - intros c Hin. apply In_zrange.
    apply Permutation_in with (map minterm (gridCells g)); [exact Hperm|].
    now apply in_map.
Qed.

Lemma minterm_bijection_witness :
  exists g, KMapGrid exampleStore exampleProps = JS.Normal (Some g)
            /\ map minterm (gridCells g) = [0; 1; 2; 3].
Proof.
  destruct (minterm_bijection exampleStore exampleProps) as [g [Hg _]].
  - simpl. lia.
  - exists g. split; [exact Hg|].
    vm_compute in Hg. injection Hg as <-. reflexivity.
Defined.

(** ** Classification of the cells *)

Lemma includes_In xs m : JS.includes xs m = true <-> In m xs.
Proof.
  unfold JS.includes. rewrite existsb_exists. split.
  - intros [x [Hx Heq]]. apply Z.eqb_eq in Heq. now subst.
  - intros Hm. exists m. split; [assumption|apply Z.eqb_refl].
Qed.

Lemma includes_not_In xs m : JS.includes xs m = false <-> ~ In m xs.
Proof.
  rewrite <- includes_In. destruct (JS.includes xs m); split; congruence.
Qed.

Lemma valueForMinterm_cases p m :
  (valueForMinterm p m = Val1 <-> In m (minterms p))
  /\ (valueForMinterm p m = ValX <-> In m (dontCares p) /\ ~ In m (minterms p))
  /\ (valueForMinterm p m = Val0 <-> ~ In m (minterms p) /\ ~ In m (dontCares p)).
Proof.
  unfold valueForMinterm.
  destruct (JS.includes (minterms p) m) eqn:Hon;
    destruct (JS.includes (dontCares p) m) eqn:Hdc;
    repeat match goal with
           | H : JS.includes _ _ = true |- _ => apply includes_In in H
           | H : JS.includes _ _ = false |- _ => apply includes_not_In in H
           end;
    repeat split; intros; try discriminate; tauto.
Qed.

Lemma cellVal_gridCells st p g c :
  rowsRendered st p g ->
  In c (gridCells g) -> cellVal c = valueForMinterm p (minterm c).
Proof.
  intros Hrows Hin.
  apply (In_gridCells st p g c Hrows) in Hin as [rg [cg [_ [_ ->]]]]. reflexivity.
Qed.

(** Claim C2: when no minterm is also a don't-care, every cell of the
    rendered grid has value ['1'] exactly when its minterm index is in
    [minterms], value ['X'] exactly when its index is in [dontCares] (and
    then it is not in [minterms]), and value ['0'] exactly when it is in
    neither list.  The lists need not be confined to [[0, 2 ^ n)] for
    this to hold. *)
Theorem cell_classification st p :
  2 <= numInputs p <= 6 ->
  (forall m, In m (minterms p) -> ~ In m (dontCares p)) ->
  exists g,
    KMapGrid st p = JS.Normal (Some g)
    /\ forall c, In c (gridCells g) ->
         (cellVal c = Val1 <-> In (minterm c) (minterms p))
         /\ (cellVal c = ValX <-> In (minterm c) (dontCares p))
         /\ (cellVal c = ValX <->
             In (minterm c) (dontCares p) /\ ~ In (minterm c) (minterms p))
         /\ (cellVal c = Val0 <->
             ~ In (minterm c) (minterms p) /\ ~ In (minterm c) (dontCares p)).
Proof.
  intros Hn Hdisj.
  destruct (KMapGrid_valid st p Hn)
    as [g [Hg [_ [_ [_ [_ [_ [_ [_ [_ [_ Hcells]]]]]]]]]]].
  exists g. split; [exact Hg|]. intros c Hin.
  rewrite (cellVal_gridCells st p g c Hcells Hin).
  destruct (valueForMinterm_cases p (minterm c)) as [H1 [HX H0]].
  pose proof (Hdisj (minterm c)) as Hd.
  repeat split; tauto.
Qed.

Lemma cell_classification_witness :
  exists g, KMapGrid exampleStore exampleDontCareProps = JS.Normal (Some g)
            /\ map cellVal (gridCells g) = [Val0; ValX; ValX; Val0].
Proof.
  destruct (cell_classification exampleStore exampleDontCareProps) as [g [Hg _]].
  - simpl. lia.
  - simpl. tauto.
  - exists g. split; [exact Hg|].
    vm_compute in Hg. injection Hg as <-. reflexivity.
Defined.

(** Claim C10: a minterm index listed both in [minterms] and in
    [dontCares] is classified ['1']: membership in [minterms] is tested
    first, and every cell of the rendered grid with that index shows
    ['1']. *)
Theorem on_takes_precedence st p m :
  2 <= numInputs p <= 6 ->
  In m (minterms p) -> In m (dontCares p) ->
  valueForMinterm p m = Val1
  /\ exists g,
       KMapGrid st p = JS.Normal (Some g)
       /\ forall c, In c (gridCells g) -> minterm c = m -> cellVal c = Val1.
Proof.
  intros Hn Hon Hdc.
  assert (valueForMinterm p m = Val1) as Hval
    by now apply (proj1 (valueForMinterm_cases p m)).
  split; [exact Hval|].
  destruct (KMapGrid_valid st p Hn)
    as [g [Hg [_ [_ [_ [_ [_ [_ [_ [_ [_ Hcells]]]]]]]]]]].
  exists g. split; [exact Hg|]. intros c Hin <-.
  now rewrite (cellVal_gridCells st p g c Hcells Hin).
Qed.

Lemma on_takes_precedence_witness :
  valueForMinterm exampleOverlapProps 1 = Val1
  /\ exists g, KMapGrid exampleStore exampleOverlapProps = JS.Normal (Some g)
               /\ map cellVal (gridCells g) = [Val0; Val1; ValX; Val0].
Proof.
  destruct (on_takes_precedence exampleStore exampleOverlapProps 1)
    as [Hval [g [Hg _]]].
  - simpl. lia.
  - simpl. tauto.
  - simpl. tauto.
  - split; [exact Hval|]. exists g. split; [exact Hg|].
    vm_compute in Hg. injection Hg as <-. reflexivity.
Defined.

(** ** Out-of-domain variable counts *)

(** Claim C8: for every [numInputs] below 2 or above 6 the component
    returns [null] at once: no grid is produced. *)
Theorem out_of_range_no_grid st p :
  numInputs p < 2 \/ 6 < numInputs p -> KMapGrid st p = JS.Normal None.
Proof.
  intros Hn. unfold KMapGrid.
  destruct (Z.ltb_spec (numInputs p) 2); [reflexivity|].
  destruct (Z.ltb_spec 6 (numInputs p)); [reflexivity|lia].
Qed.

Lemma out_of_range_no_grid_witness :
  KMapGrid exampleStore
    {| numInputs := 7; minterms := [0; 3]; dontCares := []; implicants := [0%nat] |}
  = JS.Normal None.
Proof.
  apply out_of_range_no_grid. simpl. lia.
Defined.

(** ** The implicant overlay *)

Lemma filter_loop_spec {A : Type} (q : A -> bool) xs : forall out,
  JS.filter_loop q xs out = out ++ List.filter q xs.
Proof.
  induction xs as [|x xs IH]; intros out; simpl.
  - now rewrite app_nil_r.
  - rewrite IH. destruct (q x); [now rewrite <- app_assoc | reflexivity].
Qed.

Lemma filter_spec {A : Type} (q : A -> bool) xs : JS.filter q xs = List.filter q xs.
Proof. unfold JS.filter. now rewrite filter_loop_spec. Qed.

(** Filtering a list is filtering its indexes and reading the list there. *)
Lemma filter_by_index {A : Type} (q : A -> bool) (l : list A) : forall pre,
  map Some (List.filter q l) =
  map (nth_error (pre ++ l))
      (List.filter (fun i => match nth_error (pre ++ l) i with
                             | Some x => q x
                             | None => false
                             end)
                   (seq (List.length pre) (List.length l))).
Proof.
  induction l as [|x l IH]; intros pre; [reflexivity|].
  cbn [List.length seq List.filter].
  assert (nth_error (pre ++ x :: l) (List.length pre) = Some x) as Hx.
  { rewrite nth_error_app2 by lia. now rewrite Nat.sub_diag. }
  rewrite Hx.
  specialize (IH (pre ++ [x])).
  rewrite <- app_assoc, length_app in IH. cbn [List.length app] in IH.
  replace (List.length pre + 1)%nat with (S (List.length pre)) in IH by lia.
  destruct (q x); cbn [map]; [rewrite Hx; f_equal|]; exact IH.
Qed.

Lemma StronglySorted_seq s n : StronglySorted lt (seq s n).
Proof.
  revert s. induction n as [|n IH]; intros s; simpl; constructor.
  - apply IH.
  - apply Forall_forall. intros x Hx. apply in_seq in Hx. lia.
Qed.

Lemma StronglySorted_filter {A : Type} (R : A -> A -> Prop) (q : A -> bool) l :
  StronglySorted R l -> StronglySorted R (List.filter q l).
Proof.
  induction 1 as [|x l Hs IH Hall]; simpl; [constructor|].
  destruct (q x); [|assumption]. constructor; [assumption|].
  rewrite Forall_forall in *. intros y Hy. apply filter_In in Hy. now apply Hall.
Qed.

Lemma In_coveringImplicantIndexes st imps m i :
  In i (coveringImplicantIndexes st imps m) <->
  exists r, nth_error imps i = Some r /\ In m (covered (st r)).
Proof.
  unfold coveringImplicantIndexes. rewrite filter_In, in_seq. split.
  - intros [_ Hq]. destruct (nth_error imps i) as [r|]; [|discriminate].
    exists r. split; [reflexivity|]. now apply includes_In.
  - intros [r [Hr Hm]]. split.
    + assert (nth_error imps i <> None) as Hsome by congruence.
      apply nth_error_Some in Hsome. lia.
    + rewrite Hr. now apply includes_In.
Qed.

Lemma coveringGroups_gridCells st p g c :
  rowsRendered st p g ->
  In c (gridCells g) ->
  coveringGroups c =
    JS.filter (fun r => JS.includes (covered (st r)) (minterm c)) (implicants p)
  /\ firstGroupIndex c =
       match coveringGroups c with
       | first :: _ => JS.indexOf Nat.eqb (implicants p) first
       | [] => -1
       end
  /\ groupRingClass c =
       if 0 <=? firstGroupIndex c
       then JS.index GROUP_RING_CLASSES
              (JS.rem (firstGroupIndex c) (Z.of_nat (List.length GROUP_RING_CLASSES)))
       else Some EmptyString.
Proof.
  intros Hrows Hin.
  apply (In_gridCells st p g c Hrows) in Hin as [rg [cg [_ [_ ->]]]].
  repeat split.
Qed.

(** Claim C3: for every cell of the rendered grid, the covering groups
    are exactly the sub-sequence of the [implicants] list made of the
    implicants whose [covered] list contains the minterm index of the
    cell, in the order of the list: reading the list at the covering
    indexes, taken in ascending order, gives the covering groups, and
    every covering implicant is kept, not only the first. *)
Theorem covering_implicants st p :
  2 <= numInputs p <= 6 ->
  exists g,
    KMapGrid st p = JS.Normal (Some g)
    /\ forall c, In c (gridCells g) ->
         coveringGroups c =
           List.filter (fun r => JS.includes (covered (st r)) (minterm c)) (implicants p)
         /\ map Some (coveringGroups c) =
              map (nth_error (implicants p))
                  (coveringImplicantIndexes st (implicants p) (minterm c))
         /\ StronglySorted lt (coveringImplicantIndexes st (implicants p) (minterm c))
         /\ (forall i, In i (coveringImplicantIndexes st (implicants p) (minterm c)) <->
                       exists r, nth_error (implicants p) i = Some r
                                 /\ In (minterm c) (covered (st r)))
         /\ (forall r, In r (coveringGroups c) <->
                       In r (implicants p) /\ In (minterm c) (covered (st r))).
Proof.
  intros Hn.
  destruct (KMapGrid_valid st p Hn)
    as [g [Hg [_ [_ [_ [_ [_ [_ [_ [_ [_ Hcells]]]]]]]]]]].
  exists g. split; [exact Hg|]. intros c Hin.
  destruct (coveringGroups_gridCells st p g c Hcells Hin) as [Hcov _].
  rewrite filter_spec in Hcov. rewrite Hcov.
  split; [reflexivity|]. split; [|split; [|split]].
  - apply (filter_by_index _ (implicants p) []).
  - apply StronglySorted_filter, StronglySorted_seq.
  - intros i. apply In_coveringImplicantIndexes.
  - intros r. rewrite filter_In, includes_In. tauto.
Qed.

Lemma covering_implicants_witness :
  exists g, KMapGrid exampleStore exampleOverlayProps = JS.Normal (Some g)
            /\ map coveringGroups (gridCells g) =
               [[0%nat]; [2%nat]; []; [1%nat; 2%nat]].
Proof.
  destruct (covering_implicants exampleStore exampleOverlayProps) as [g [Hg _]].
  - simpl. lia.
  - exists g. split; [exact Hg|].
    vm_compute in Hg. injection Hg as <-. reflexivity.
Defined.

(** ** The primary implicant and its colour *)

Lemma filter_head_split {A : Type} (q : A -> bool) (l : list A) first rest :
  List.filter q l = first :: rest ->
  exists pre post,
    l = pre ++ first :: post
    /\ (forall y, In y pre -> q y = false)
    /\ q first = true.
Proof.
  induction l as [|x l IH]; simpl; [discriminate|].
  destruct (q x) eqn:Hqx.
  - intros Heq. injection Heq as -> _. exists [], l. repeat split; [|assumption].
    intros y [].
  - intros Heq. destruct (IH Heq) as [pre [post [-> [Hpre Hfirst]]]].
    exists (x :: pre), post. repeat split; [|assumption].
    intros y [<-|Hy]; [assumption|now apply Hpre].
Qed.

Lemma indexOf_from_split (x : Ref) (pre post : list Ref) : forall k,
  ~ In x pre ->
  JS.indexOf_from Nat.eqb x (pre ++ x :: post) k = k + Z.of_nat (List.length pre).
Proof.
  induction pre as [|y pre IH]; intros k Hnot; simpl.
  - rewrite Nat.eqb_refl. lia.
  - destruct (Nat.eqb_spec y x) as [->|_].
    + exfalso. apply Hnot. now left.
    + rewrite IH by (intros Hin; apply Hnot; now right). lia.
Qed.

Lemma ring_class_defined i :
  0 <= i ->
  JS.index GROUP_RING_CLASSES (JS.rem i (Z.of_nat (List.length GROUP_RING_CLASSES))) =
    nth_error GROUP_RING_CLASSES (Z.to_nat (i mod 5))
  /\ exists cls, nth_error GROUP_RING_CLASSES (Z.to_nat (i mod 5)) = Some cls.
Proof.
  intros Hi. unfold JS.index, JS.rem.
  change (Z.of_nat (List.length GROUP_RING_CLASSES)) with 5.
  rewrite Z.rem_mod_nonneg by lia.
  pose proof (Z.mod_pos_bound i 5 ltac:(lia)) as Hm.
  destruct (Z.ltb_spec (i mod 5) 0); [lia|]. split; [reflexivity|].
  destruct (nth_error GROUP_RING_CLASSES (Z.to_nat (i mod 5))) as [cls|] eqn:Hnth.
  - now exists cls.
  - apply nth_error_None in Hnth. simpl in Hnth. lia.
Qed.

(** Claim C6: for every cell of the rendered grid, when no implicant
    covers the cell there is no primary implicant (index -1, no ring
    class); otherwise the primary implicant is the first covering group,
    its index [i] is its position in the full [implicants] list (no earlier
    entry is that implicant, and no earlier entry covers the cell), and the
    ring class of the cell is the entry [i mod 5] of the palette, which
    always exists: more implicants than colours reuse the colours. *)
Theorem primary_implicant_colour st p :
  2 <= numInputs p <= 6 ->
  exists g,
    KMapGrid st p = JS.Normal (Some g)
    /\ forall c, In c (gridCells g) ->
         (coveringGroups c = [] ->
            firstGroupIndex c = -1 /\ groupRingClass c = Some EmptyString)
         /\ (forall first rest, coveringGroups c = first :: rest ->
               exists i : nat,
                 firstGroupIndex c = Z.of_nat i
                 /\ nth_error (implicants p) i = Some first
                 /\ (forall j r, (j < i)%nat -> nth_error (implicants p) j = Some r ->
                       r <> first /\ ~ In (minterm c) (covered (st r)))
                 /\ groupRingClass c =
                      nth_error GROUP_RING_CLASSES
                                (i mod List.length GROUP_RING_CLASSES)%nat
                 /\ exists cls, groupRingClass c = Some cls).
Proof.
  intros Hn.
  destruct (KMapGrid_valid st p Hn)
    as [g [Hg [_ [_ [_ [_ [_ [_ [_ [_ [_ Hcells]]]]]]]]]]].
  exists g. split; [exact Hg|]. intros c Hin.
  destruct (coveringGroups_gridCells st p g c Hcells Hin) as [Hcov [Hidx Hring]].
  split.
  - intros Hnil. rewrite Hnil in Hidx. rewrite Hring, Hidx. now split.
  - intros first rest Hcons. rewrite Hcons in Hidx.
    rewrite filter_spec, Hcons in Hcov. symmetry in Hcov.
    destruct (filter_head_split _ _ _ _ Hcov) as [pre [post [Himps [Hpre Hfirst]]]].
    assert (~ In first pre) as Hnot.
    { intros Hin'. apply Hpre in Hin'. congruence. }
    assert (firstGroupIndex c = Z.of_nat (List.length pre)) as Hpos.
    { rewrite Hidx. unfold JS.indexOf. rewrite Himps, indexOf_from_split by assumption. lia. }
    exists (List.length pre). split; [exact Hpos|]. split; [|split].
    + rewrite Himps, nth_error_app2 by lia. now rewrite Nat.sub_diag.
    + intros j r Hj Hr. rewrite Himps, nth_error_app1 in Hr by lia.
      apply nth_error_In in Hr. split.
      * intros ->. contradiction.
      * apply includes_not_In. now apply Hpre.
    + rewrite Hring, Hpos.
      destruct (Z.leb_spec 0 (Z.of_nat (List.length pre))); [|lia].
      destruct (ring_class_defined (Z.of_nat (List.length pre)) ltac:(lia))
        as [Heq [cls Hcls]].
      rewrite Heq.
      replace (Z.to_nat (Z.of_nat (List.length pre) mod 5))
        with (List.length pre mod List.length GROUP_RING_CLASSES)%nat.
      * split; [reflexivity|]. exists cls. rewrite <- Hcls. f_equal.
        change (List.length GROUP_RING_CLASSES) with 5%nat.
        rewrite <- (Nat2Z.id (List.length pre mod 5)). f_equal.
        now rewrite Nat2Z.inj_mod.
      * change (List.length GROUP_RING_CLASSES) with 5%nat.
        rewrite <- (Nat2Z.id (List.length pre mod 5)). f_equal.
        now rewrite Nat2Z.inj_mod.
Qed.

Lemma primary_implicant_colour_witness :
  exists g, KMapGrid exampleStore exampleOverlayProps = JS.Normal (Some g)
            /\ map firstGroupIndex (gridCells g) = [0; 2; -1; 1].
Proof.
  destruct (primary_implicant_colour exampleStore exampleOverlayProps) as [g [Hg _]].
  - simpl. lia.
  - exists g. split; [exact Hg|].
    vm_compute in Hg. injection Hg as <-. reflexivity.
Defined.

(** ** Malformed implicants *)

Lemma includes_filter (q : Z -> bool) xs m :
  q m = true -> JS.includes (List.filter q xs) m = JS.includes xs m.
Proof.
  intros Hq. apply eq_true_iff_eq. rewrite !includes_In, filter_In. tauto.
Qed.

Lemma renderCell_store_ext st st' p cv rg cg :
  (forall r, In r (implicants p) ->
     bits (st' r) = bits (st r)
     /\ JS.includes (covered (st' r)) (JS.bor (JS.shl rg cv) cg) =
        JS.includes (covered (st r)) (JS.bor (JS.shl rg cv) cg)) ->
  renderCell st' p cv rg cg = renderCell st p cv rg cg.
Proof.
  intros Hst. unfold renderCell. cbv zeta.
  set (m := JS.bor (JS.shl rg cv) cg) in *.
  assert (JS.filter (fun imp => JS.includes (covered (st' imp)) m) (implicants p) =
          JS.filter (fun imp => JS.includes (covered (st imp)) m) (implicants p)) as Hf.
  { rewrite !filter_spec. apply filter_ext_in. intros r Hr. now apply Hst. }
  rewrite Hf.
  assert (map (fun imp => bits (st' imp))
              (JS.filter (fun imp => JS.includes (covered (st imp)) m) (implicants p)) =
          map (fun imp => bits (st imp))
              (JS.filter (fun imp => JS.includes (covered (st imp)) m) (implicants p))) as Hb.
  { apply map_ext_in. intros r Hr. rewrite filter_spec in Hr.
    apply filter_In in Hr. now apply Hst. }
  rewrite Hb. reflexivity.
Qed.

(** Claim C5, as amended: the component validates nothing about the
    implicants.  For every [numInputs] in [[2, 6]] and every implicant
    list it completes normally with a grid, whatever the patterns and the
    [covered] lists are; entries of [covered] outside [[0, 2 ^ numInputs)]
    match no cell and are ignored: the grid is the one obtained when every
    such entry is removed from the store. *)
Theorem no_structural_validation st st' p :
  2 <= numInputs p <= 6 ->
  (forall r, In r (implicants p) ->
     bits (st' r) = bits (st r)
     /\ covered (st' r) =
        List.filter (fun m => (0 <=? m) && (m <? 2 ^ numInputs p)) (covered (st r))) ->
  exists g,
    KMapGrid st p = JS.Normal (Some g)
    /\ KMapGrid st' p = JS.Normal (Some g)
    /\ forall c r, In c (gridCells g) ->
         (In r (coveringGroups c) <->
          In r (implicants p) /\ In (minterm c) (covered (st r))).
Proof.
  intros Hn Hst.
  destruct (KMapGrid_valid st p Hn)
    as [g [Hg [Hr [Hc [_ [_ [Hrg [Hcg [_ [_ [_ Hcells]]]]]]]]]]].
  exists g. split; [exact Hg|]. split.
  - rewrite <- Hg. unfold KMapGrid.
    destruct (Z.ltb_spec (numInputs p) 2); [lia|].
    destruct (Z.ltb_spec 6 (numInputs p)); [lia|].
    cbn [orb]. cbv zeta. unfold JS.floorDiv. do 3 f_equal.
    destruct (axis_widths _ Hn) as [Hrw Hcw].
    apply map_ext_in. intros rg Hi. f_equal.
    apply map_ext_in. intros cg Hj.
    apply renderCell_store_ext. intros r Hin.
    destruct (Hst r Hin) as [Hbits Hcov]. split; [exact Hbits|].
    rewrite Hcov. apply includes_filter.
    apply In_graySequence in Hi; [|lia]. apply In_graySequence in Hj; [|lia].
    rewrite (shl_bor_combine rg cg (numInputs p / 2)) by lia.
    assert (0 < 2 ^ (numInputs p - numInputs p / 2)) by (apply Z.pow_pos_nonneg; lia).
    assert (2 ^ (numInputs p / 2) * 2 ^ (numInputs p - numInputs p / 2) = 2 ^ numInputs p).
    { rewrite <- Z.pow_add_r by lia. f_equal. lia. }
    apply andb_true_iff. split; [apply Z.leb_le|apply Z.ltb_lt]; nia.
  - intros c r Hin.
    destruct (coveringGroups_gridCells st p g c Hcells Hin) as [Hcov _].
    rewrite Hcov, filter_spec, filter_In, includes_In. tauto.
Qed.

Lemma no_structural_validation_witness :
  exists g, KMapGrid exampleStore exampleMalformedProps = JS.Normal (Some g)
            /\ KMapGrid examplePurgedStore exampleMalformedProps = JS.Normal (Some g).
Proof.
  destruct (no_structural_validation exampleStore examplePurgedStore exampleMalformedProps)
    as [g [Hg [Hg' _]]].
  - simpl. lia.
  - intros r [<-|[]]. split; reflexivity.
  - exists g. split; assumption.
Defined.

(** Claim C5 as stated fails: with [numInputs = 2] and one implicant whose
    [covered] list is [[99]], nothing is thrown; the grid is rendered and
    the entry 99 is ignored. *)
Lemma malformed_covered_not_rejected :
  (In 99 (covered (exampleStore 3%nat))
   /\ ~ 0 <= 99 < 2 ^ numInputs exampleMalformedProps)
  /\ (forall msg, KMapGrid exampleStore exampleMalformedProps <> JS.Throw msg)
  /\ exists g, KMapGrid exampleStore exampleMalformedProps = JS.Normal (Some g)
               /\ map minterm (gridCells g) = [0; 1; 2; 3]
               /\ map coveringGroups (gridCells g) = [[]; []; []; []].
Proof.
  split; [split; [simpl; tauto | simpl; lia]|]. split.
  - intros msg. vm_compute. discriminate.
  - eexists. split; [vm_compute; reflexivity|]. split; reflexivity.
Qed.

(** ** Bit strings *)

Lemma digitsMSB_S m (k : nat) :
  digitsMSB m (S k) = String (bitChar (Z.testbit m (Z.of_nat k))) (digitsMSB m k).
Proof. reflexivity. Qed.

Lemma binaryDigits_digitsMSB m n : binaryDigits m n = digitsMSB m (Z.to_nat n).
Proof.
  unfold binaryDigits. 
  assert (forall (k : nat) (z : Z), z = Z.of_nat k ->
    map (fun i => bitChar (Z.testbit m (z - 1 - Z.of_nat i))) (seq 0 k) =
    list_ascii_of_string (digitsMSB m k)) as Haux.
  { induction k as [|k IH]; intros z Hz; [reflexivity|].
    cbn [seq map digitsMSB list_ascii_of_string]. f_equal.
    - do 2 f_equal. lia.
    - rewrite <- seq_shift, map_map. rewrite <- (IH (z - 1)) by lia.
      apply map_ext. intros i. do 2 f_equal. lia. }
  destruct (Z.lt_ge_cases n 0) as [Hneg|Hpos].
  - destruct n; try lia. reflexivity.
  - rewrite (Haux (Z.to_nat n) n) by lia.
    apply string_of_list_ascii_of_string.
Qed.

Lemma digitsMSB_length m k : String.length (digitsMSB m k) = k.
Proof. induction k as [|k IH]; simpl; [reflexivity|now rewrite IH]. Qed.

Lemma append_String_assoc c s t : (String c s ++ t = String c (s ++ t))%string.
Proof. reflexivity. Qed.

(** Appending one digit on the right doubles the number. *)
Lemma digitsMSB_double x (b : bool) k :
  digitsMSB (2 * x + Z.b2z b) (S k) =
  (digitsMSB x k ++ String (bitChar b) EmptyString)%string.
Proof.
  induction k as [|k IH].
  - cbn [digitsMSB]. change (Z.of_nat 0) with 0. now rewrite Z.testbit_0_r.
  - rewrite digitsMSB_S, IH.
    replace (Z.of_nat (S k)) with (Z.succ (Z.of_nat k)) by lia.
    rewrite Z.testbit_succ_r by lia. reflexivity.
Qed.

(** Digits above the size of the number are zeros. *)
Lemma digitsMSB_pad m (k j : nat) :
  0 <= m < 2 ^ Z.of_nat k ->
  digitsMSB m (j + k) = (JS.replicate j "0" ++ digitsMSB m k)%string.
Proof.
  intros Hm. induction j as [|j IH]; [reflexivity|].
  cbn [Nat.add digitsMSB JS.replicate]. rewrite IH.
  rewrite (testbit_above m (Z.of_nat k)) by lia. reflexivity.
Qed.

Lemma size_nat_bounds p :
  2 ^ Z.of_nat (Pos.size_nat p) <= 2 * Z.pos p
  /\ Z.pos p < 2 ^ Z.of_nat (Pos.size_nat p).
Proof.
  induction p as [p IH|p IH|]; cbn [Pos.size_nat].
  - rewrite Nat2Z.inj_succ, Z.pow_succ_r by lia. lia.
  - rewrite Nat2Z.inj_succ, Z.pow_succ_r by lia. lia.
  - simpl. lia.
Qed.

Lemma posToString2_digits p :
  JS.posToString2 p = digitsMSB (Z.pos p) (Pos.size_nat p).
Proof.
  induction p as [p IH|p IH|]; cbn [JS.posToString2 Pos.size_nat].
  - change (Z.pos p~1) with (2 * Z.pos p + Z.b2z true).
    now rewrite digitsMSB_double, IH.
  - replace (Z.pos p~0) with (2 * Z.pos p + Z.b2z false) by (unfold Z.b2z; lia).
    now rewrite digitsMSB_double, IH.
  - reflexivity.
Qed.

Lemma toBitsString_digits m n :
  1 <= n -> 0 <= m < 2 ^ n -> toBitsString m n = digitsMSB m (Z.to_nat n).
Proof.
  intros Hn Hm. unfold toBitsString, JS.padStart.
  destruct m as [|p|p]; [| |lia].
  - (* zero is printed as the single digit 0 *)
    cbn [JS.toString2 String.length].
    destruct (Z.leb_spec n (Z.of_nat 1)).
    + replace n with 1 by lia. reflexivity.
    + replace (Z.to_nat n) with (Z.to_nat (n - Z.of_nat 1) + 1)%nat by lia.
      rewrite digitsMSB_pad by (simpl; lia). reflexivity.
  - cbn [JS.toString2]. rewrite posToString2_digits, digitsMSB_length.
    destruct (size_nat_bounds p) as [Hlow Hhigh].
    assert (Z.of_nat (Pos.size_nat p) <= n) as Hsize.
    { destruct (Z.lt_ge_cases n (Z.of_nat (Pos.size_nat p))) as [Hlt|]; [|lia].
      assert (2 ^ (n + 1) <= 2 ^ Z.of_nat (Pos.size_nat p))
        by (apply Z.pow_le_mono_r; lia).
      rewrite Z.pow_add_r in * by lia. lia. }
    destruct (Z.leb_spec n (Z.of_nat (Pos.size_nat p))).
    + f_equal. lia.
    + replace (Z.to_nat n)
        with (Z.to_nat (n - Z.of_nat (Pos.size_nat p)) + Pos.size_nat p)%nat by lia.
      now rewrite digitsMSB_pad.
Qed.

Lemma binaryValue_from_app s : forall acc b,
  binaryValue_from acc (s ++ String (bitChar b) EmptyString) =
  2 * binaryValue_from acc s + Z.b2z b.
Proof.
  induction s as [|c s IH]; intros acc b.
  - destruct b; reflexivity.
  - cbn [append binaryValue_from]. apply IH.
Qed.

Lemma binaryValue_digitsMSB (k : nat) : forall m,
  0 <= m < 2 ^ Z.of_nat k -> binaryValue (digitsMSB m k) = m.
Proof.
  induction k as [|k IH]; intros m Hm.
  - simpl in Hm. unfold binaryValue. simpl. lia.
  - rewrite Nat2Z.inj_succ, Z.pow_succ_r in Hm by lia.
    pose proof (Z.div_mod m 2 ltac:(lia)) as Hdm.
    pose proof (Z.bit0_mod m) as Hbit.
    rewrite Hdm at 1. rewrite <- Hbit.
    rewrite digitsMSB_double. unfold binaryValue in *.
    rewrite binaryValue_from_app, IH; [lia|].
    split; [apply Z.div_pos; lia | apply Z.div_lt_upper_bound; lia].
Qed.

Lemma digitsMSB_get m (k : nat) : forall i : nat,
  (i < k)%nat ->
  String.get i (digitsMSB m k) =
  Some (bitChar (Z.testbit m (Z.of_nat k - 1 - Z.of_nat i))).
Proof.
  induction k as [|k IH]; intros i Hi; [lia|].
  destruct i as [|i]; cbn [digitsMSB String.get].
  - do 3 f_equal. lia.
  - rewrite IH by lia. do 3 f_equal. lia.
Qed.

(** The bit string shown for a cell is the binary representation of its
    minterm index on [numInputs] digits. *)
Lemma cell_bitString_binary st p g c :
  2 <= numInputs p <= 6 ->
  rowVars g = numInputs p / 2 ->
  colVars g = numInputs p - numInputs p / 2 ->
  rowGray g = graySequence (rowVars g) ->
  colGray g = graySequence (colVars g) ->
  rowsRendered st p g ->
  In c (gridCells g) ->
  bitString c = binaryDigits (minterm c) (numInputs p).
Proof.
  intros Hn Hr Hc Hrg Hcg Hrows Hin.
  destruct (cell_minterm_combine st p g c Hn Hr Hc Hrg Hcg Hrows Hin)
    as [Hrb [Hcb [_ [_ [_ Hm]]]]].
  destruct (axis_widths _ Hn) as [Hrw Hcw]. rewrite <- Hr in Hrw. rewrite <- Hc in Hcw.
  assert (bitString c = toBitsString (minterm c) (numInputs p)) as ->.
  { apply (In_gridCells st p g c Hrows) in Hin as [rg [cg [_ [_ ->]]]]. reflexivity. }
  rewrite binaryDigits_digitsMSB. apply toBitsString_digits; [lia|].
  assert (0 < 2 ^ colVars g) by (apply Z.pow_pos_nonneg; lia).
  assert (2 ^ rowVars g * 2 ^ colVars g = 2 ^ numInputs p).
  { rewrite <- Z.pow_add_r by lia. f_equal. lia. }
  nia.
Qed.

(** Claim C9: for every width [n >= 1] (in particular for every variable
    count in [[2, 6]]) and every minterm index [m] with [0 <= m < 2 ^ n],
    [toBitsString m n] has length exactly [n] and is the binary
    representation of [m] on [n] digits, most significant bit first: the
    character at position [i] from the left is the digit of bit
    [n - 1 - i], and reading the string as a binary numeral gives [m]. *)
Theorem toBitsString_binary m n :
  1 <= n -> 0 <= m < 2 ^ n ->
  Z.of_nat (String.length (toBitsString m n)) = n
  /\ toBitsString m n = binaryDigits m n
  /\ (forall i, 0 <= i < n ->
        String.get (Z.to_nat i) (toBitsString m n) =
        Some (bitChar (Z.testbit m (n - 1 - i))))
  /\ binaryValue (toBitsString m n) = m.
Proof.
  intros Hn Hm. rewrite toBitsString_digits by assumption.
  split; [rewrite digitsMSB_length; lia|].
  split; [now rewrite binaryDigits_digitsMSB|].
  split.
  - intros i Hi. rewrite digitsMSB_get by lia. do 3 f_equal. lia.
  - apply binaryValue_digitsMSB. rewrite Z2Nat.id by lia. exact Hm.
Qed.

Lemma toBitsString_binary_witness :
  toBitsString 5 4 = "0101"%string /\ binaryValue (toBitsString 5 4) = 5.
Proof.
  destruct (toBitsString_binary 5 4) as [_ [Hdigits [_ Hvalue]]].
  - lia.
  - simpl. lia.
  - split; [rewrite Hdigits; reflexivity | exact Hvalue].
Defined.

(** ** The scenarios of the specification *)

Example scenario_two_minterms :
  exists g, KMapGrid exampleStore exampleProps = JS.Normal (Some g)
            /\ rowGray g = [0; 1] /\ colGray g = [0; 1]
            /\ map minterm (gridCells g) = [0; 1; 2; 3]
            /\ map cellVal (gridCells g) = [Val1; Val0; Val0; Val1]
            /\ map coveringGroups (gridCells g) = [[0%nat]; []; []; [1%nat]].
Proof. eexists. split; [vm_compute; reflexivity|]. repeat split. Qed.

Example scenario_dont_cares :
  exists g, KMapGrid exampleStore exampleDontCareProps = JS.Normal (Some g)
            /\ map cellVal (gridCells g) = [Val0; ValX; ValX; Val0]
            /\ map coveringGroups (gridCells g) = [[]; []; []; []].
Proof. eexists. split; [vm_compute; reflexivity|]. repeat split. Qed.

(** * Further properties of the grid *)

(** ** Positions in the grid *)

Lemma nth_error_zrange (i : nat) n :
  Z.of_nat i < n -> nth_error (zrange n) i = Some (Z.of_nat i).
Proof.
  intros Hi. unfold zrange.
  rewrite nth_error_map, nth_error_seq.
  destruct (Nat.ltb_spec i (Z.to_nat n)); [reflexivity|lia].
Qed.

Lemma nth_error_graySequence k (i : nat) :
  0 <= k <= 30 -> Z.of_nat i < 2 ^ k ->
  nth_error (graySequence k) i = Some (grayOf (Z.of_nat i)).
Proof.
  intros Hk Hi. rewrite graySequence_spec by assumption.
  now rewrite nth_error_map, nth_error_zrange.
Qed.

Lemma cellAt_rendered st p g ri ci rg cg :
  rowsRendered st p g ->
  nth_error (rowGray g) ri = Some rg ->
  nth_error (colGray g) ci = Some cg ->
  cellAt g ri ci = Some (renderCell st p (colVars g) rg cg)
  /\ rowLabelAt g ri = Some (toBitsString rg (rowVars g)).
Proof.
  intros Hrows Hrg Hcg. unfold cellAt, rowLabelAt. rewrite Hrows.
  rewrite nth_error_map, Hrg. cbn [option_map snd fst].
  now rewrite nth_error_map, Hcg.
Qed.

(** ** Neighbouring cells *)

Lemma gray_cyclic_neighbours k i :
  1 <= k -> 0 <= i < 2 ^ k ->
  differ_in_one_bit (grayOf i) (grayOf ((i + 1) mod 2 ^ k)).
Proof.
  intros Hk Hi.
  destruct (Z.eq_dec (i + 1) (2 ^ k)) as [Hlast|Hmid].
  - rewrite Hlast, Z.mod_same by lia.
    apply lxor_pow2_differ with (k - 1); [lia|].
    change (grayOf 0) with 0. rewrite Z.lxor_0_r.
    replace i with (Z.ones (k - 1 + 1)).
    + apply grayOf_ones. lia.
    + rewrite Z.ones_equiv. replace (k - 1 + 1) with k by lia. lia.
  - rewrite Z.mod_small by lia.
    destruct (grayOf_succ i ltac:(lia)) as [j [Hj Hx]].
    now apply lxor_pow2_differ with j.
Qed.

Lemma combine_testbit a x c t :
  0 <= c -> 0 <= x < 2 ^ c -> 0 <= t ->
  Z.testbit (a * 2 ^ c + x) t =
  if t <? c then Z.testbit x t else Z.testbit a (t - c).
Proof.
  intros Hc Hx Ht.
  rewrite <- Z.add_lor_land, land_shifted_low, Z.add_0_r by lia.
  rewrite Z.lor_spec, Z.mul_pow2_bits by lia.
  destruct (Z.ltb_spec t c).
  - rewrite (Z.testbit_neg_r a) by lia. reflexivity.
  - rewrite (testbit_above x c t) by lia. apply orb_false_r.
Qed.

Lemma differ_low_part a x y c :
  0 <= c -> 0 <= x < 2 ^ c -> 0 <= y < 2 ^ c ->
  differ_in_one_bit x y ->
  differ_in_one_bit (a * 2 ^ c + x) (a * 2 ^ c + y).
Proof.
  intros Hc Hx Hy [j [Hj Hdiff]].
  assert (j < c) as Hjc.
  { destruct (Z.lt_ge_cases j c) as [|Hge]; [assumption|exfalso].
    apply (proj2 (Hdiff j Hj) eq_refl).
    now rewrite (testbit_above x c j), (testbit_above y c j) by lia. }
  exists j. split; [assumption|]. intros t Ht.
  rewrite !combine_testbit by lia.
  destruct (Z.ltb_spec t c).
  - now apply Hdiff.
  - split; [intros Hne; now contradiction Hne | lia].
Qed.

Lemma differ_high_part a b x c :
  0 <= c -> 0 <= x < 2 ^ c ->
  differ_in_one_bit a b ->
  differ_in_one_bit (a * 2 ^ c + x) (b * 2 ^ c + x).
Proof.
  intros Hc Hx [j [Hj Hdiff]].
  exists (j + c). split; [lia|]. intros t Ht.
  rewrite !combine_testbit by lia.
  destruct (Z.ltb_spec t c).
  - split; [intros Hne; now contradiction Hne | lia].
  - rewrite (Hdiff (t - c)) by lia. lia.
Qed.

(** Property X1: in the rendered grid, the minterm index of a cell and
    the index of its right-hand neighbour differ in exactly one bit, and
    so do the index of a cell and the index of the cell below it; the last
    column is followed by the first and the last row by the first. *)
Theorem neighbouring_cells_differ_in_one_bit st p :
  2 <= numInputs p <= 6 ->
  exists g,
    KMapGrid st p = JS.Normal (Some g)
    /\ forall ri ci : nat,
         Z.of_nat ri < rows g -> Z.of_nat ci < cols g ->
         exists c right below,
           cellAt g ri ci = Some c
           /\ cellAt g ri (Z.to_nat ((Z.of_nat ci + 1) mod cols g)) = Some right
           /\ cellAt g (Z.to_nat ((Z.of_nat ri + 1) mod rows g)) ci = Some below
           /\ differ_in_one_bit (minterm c) (minterm right)
           /\ differ_in_one_bit (minterm c) (minterm below).
Proof.
  intros Hn.
  destruct (KMapGrid_valid st p Hn)
    as [g [Hg [Hr [Hc [Hrows [Hcols [Hrg [Hcg [_ [_ [_ Hcells]]]]]]]]]]].
  destruct (axis_widths _ Hn) as [Hrw Hcw]. rewrite <- Hr in Hrw. rewrite <- Hc in Hcw.
  rewrite shl_one in Hrows, Hcols by lia.
  exists g. split; [exact Hg|]. intros ri ci Hri Hci.
  rewrite Hrows in *. rewrite Hcols in *.
  pose proof (Z.mod_pos_bound (Z.of_nat ci + 1) (2 ^ colVars g) ltac:(lia)) as Hci'.
  pose proof (Z.mod_pos_bound (Z.of_nat ri + 1) (2 ^ rowVars g) ltac:(lia)) as Hri'.
  set (ci' := Z.to_nat ((Z.of_nat ci + 1) mod 2 ^ colVars g)) in *.
  set (ri' := Z.to_nat ((Z.of_nat ri + 1) mod 2 ^ rowVars g)) in *.
  assert (nth_error (rowGray g) ri = Some (grayOf (Z.of_nat ri))) as Hrow
    by (rewrite Hrg; apply nth_error_graySequence; lia).
  assert (nth_error (rowGray g) ri' = Some (grayOf (Z.of_nat ri'))) as Hrow'
    by (rewrite Hrg; apply nth_error_graySequence; lia).
  assert (nth_error (colGray g) ci = Some (grayOf (Z.of_nat ci))) as Hcol
    by (rewrite Hcg; apply nth_error_graySequence; lia).
  assert (nth_error (colGray g) ci' = Some (grayOf (Z.of_nat ci'))) as Hcol'
    by (rewrite Hcg; apply nth_error_graySequence; lia).
  destruct (cellAt_rendered st p g ri ci _ _ Hcells Hrow Hcol) as [Hcell _].
  destruct (cellAt_rendered st p g ri ci' _ _ Hcells Hrow Hcol') as [Hright _].
  destruct (cellAt_rendered st p g ri' ci _ _ Hcells Hrow' Hcol) as [Hbelow _].
  do 3 eexists. split; [exact Hcell|]. split; [exact Hright|]. split; [exact Hbelow|].
  cbn [minterm renderCell].
  pose proof (grayOf_range (Z.of_nat ri) (rowVars g) ltac:(lia)) as Bri.
  pose proof (grayOf_range (Z.of_nat ri') (rowVars g) ltac:(lia)) as Bri'.
  pose proof (grayOf_range (Z.of_nat ci) (colVars g) ltac:(lia)) as Bci.
  pose proof (grayOf_range (Z.of_nat ci') (colVars g) ltac:(lia)) as Bci'.
  rewrite !(shl_bor_combine _ _ (rowVars g)) by lia.
  split.
  - apply differ_low_part; try lia.
    unfold ci'. rewrite Z2Nat.id by lia. apply gray_cyclic_neighbours; lia.
  - apply differ_high_part; try lia.
    unfold ri'. rewrite Z2Nat.id by lia. apply gray_cyclic_neighbours; lia.
Qed.

Lemma neighbouring_cells_differ_in_one_bit_witness :
  exists g, KMapGrid exampleStore exampleProps = JS.Normal (Some g)
            /\ exists c right, cellAt g 1 1 = Some c /\ cellAt g 1 0 = Some right
                               /\ differ_in_one_bit (minterm c) (minterm right).
Proof.
  destruct (neighbouring_cells_differ_in_one_bit exampleStore exampleProps)
    as [g [Hg Hnb]].
  - simpl. lia.
  - exists g. split; [exact Hg|].
    assert (rows g = 2 /\ cols g = 2) as [Hrows Hcols].
    { vm_compute in Hg. injection Hg as <-. split; reflexivity. }
    destruct (Hnb 1%nat 1%nat) as [c [right [below [Hc [Hr [_ [Hd _]]]]]]].
    + rewrite Hrows. lia.
    + rewrite Hcols. lia.
    + rewrite Hcols in Hr. exists c, right. repeat split; assumption.
Defined.

(** ** Labels and bit strings *)

Lemma digitsMSB_ext m m' (k : nat) :
  (forall t, 0 <= t < Z.of_nat k -> Z.testbit m t = Z.testbit m' t) ->
  digitsMSB m k = digitsMSB m' k.
Proof.
  induction k as [|k IH]; intros Hbits; [reflexivity|].
  cbn [digitsMSB]. rewrite (Hbits (Z.of_nat k)) by lia.
  f_equal. apply IH. intros t Ht. apply Hbits. lia.
Qed.

Lemma digitsMSB_combine a x (r c : nat) :
  0 <= x < 2 ^ Z.of_nat c ->
  digitsMSB (a * 2 ^ Z.of_nat c + x) (r + c) =
  (digitsMSB a r ++ digitsMSB x c)%string.
Proof.
  intros Hx. induction r as [|r IH].
  - apply digitsMSB_ext. intros t Ht. rewrite combine_testbit by lia.
    destruct (Z.ltb_spec t (Z.of_nat c)); [reflexivity|lia].
  - cbn [Nat.add digitsMSB append]. rewrite IH. f_equal.
    rewrite combine_testbit by lia.
    destruct (Z.ltb_spec (Z.of_nat (r + c)) (Z.of_nat c)); [lia|].
    do 2 f_equal. lia.
Qed.

(** Property X2: the bit string shown for a cell is the label of its row
    followed by the label of its column; the row labels have [rowVars]
    characters and the column labels [colVars]. *)
Theorem bitString_is_row_label_then_column_label st p :
  2 <= numInputs p <= 6 ->
  exists g,
    KMapGrid st p = JS.Normal (Some g)
    /\ forall ri ci : nat,
         Z.of_nat ri < rows g -> Z.of_nat ci < cols g ->
         exists c rowLabel colLabel,
           cellAt g ri ci = Some c
           /\ rowLabelAt g ri = Some rowLabel
           /\ nth_error (colLabels g) ci = Some colLabel
           /\ Z.of_nat (String.length rowLabel) = rowVars g
           /\ Z.of_nat (String.length colLabel) = colVars g
           /\ bitString c = (rowLabel ++ colLabel)%string.
Proof.
  intros Hn.
  destruct (KMapGrid_valid st p Hn)
    as [g [Hg [Hr [Hc [Hrows [Hcols [Hrg [Hcg [_ [_ [_ Hcells]]]]]]]]]]].
  assert (colLabels g = map (fun cg => toBitsString cg (colVars g)) (colGray g)) as Hlabels.
  { unfold KMapGrid in Hg.
    destruct (Z.ltb_spec (numInputs p) 2); [lia|].
    destruct (Z.ltb_spec 6 (numInputs p)); [lia|].
    cbn [orb] in Hg. injection Hg as <-. reflexivity. }
  destruct (axis_widths _ Hn) as [Hrw Hcw]. rewrite <- Hr in Hrw. rewrite <- Hc in Hcw.
  rewrite shl_one in Hrows, Hcols by lia.
  exists g. split; [exact Hg|]. intros ri ci Hri Hci.
  rewrite Hrows in Hri. rewrite Hcols in Hci.
  assert (nth_error (rowGray g) ri = Some (grayOf (Z.of_nat ri))) as Hrow
    by (rewrite Hrg; apply nth_error_graySequence; lia).
  assert (nth_error (colGray g) ci = Some (grayOf (Z.of_nat ci))) as Hcol
    by (rewrite Hcg; apply nth_error_graySequence; lia).
  destruct (cellAt_rendered st p g ri ci _ _ Hcells Hrow Hcol) as [Hcell Hlabel].
  do 3 eexists. split; [exact Hcell|]. split; [exact Hlabel|].
  split; [rewrite Hlabels, nth_error_map, Hcol; reflexivity|].
  pose proof (grayOf_range (Z.of_nat ri) (rowVars g) ltac:(lia)) as Bri.
  pose proof (grayOf_range (Z.of_nat ci) (colVars g) ltac:(lia)) as Bci.
  rewrite !toBitsString_digits by lia. rewrite !digitsMSB_length.
  split; [lia|]. split; [lia|].
  cbn [bitString renderCell].
  rewrite (shl_bor_combine _ _ (rowVars g)) by lia.
  assert (0 < 2 ^ colVars g) by (apply Z.pow_pos_nonneg; lia).
  assert (2 ^ rowVars g * 2 ^ colVars g = 2 ^ numInputs p).
  { rewrite <- Z.pow_add_r by lia. f_equal. lia. }
  rewrite toBitsString_digits by (try lia; nia).
  replace (Z.to_nat (numInputs p))
    with (Z.to_nat (rowVars g) + Z.to_nat (colVars g))%nat by lia.
  rewrite <- digitsMSB_combine by (rewrite Z2Nat.id; lia).
  now rewrite Z2Nat.id by lia.
Qed.

Lemma bitString_is_row_label_then_column_label_witness :
  exists g, KMapGrid exampleStore exampleProps = JS.Normal (Some g)
            /\ exists c, cellAt g 1 0 = Some c /\ bitString c = "10"%string.
Proof.
  destruct (bitString_is_row_label_then_column_label exampleStore exampleProps)
    as [g [Hg _]].
  - simpl. lia.
  - exists g. split; [exact Hg|].
    vm_compute in Hg. injection Hg as <-. eexists. split; reflexivity.
Defined.

Lemma NoDup_graySequence k : 0 <= k <= 30 -> NoDup (graySequence k).
Proof.
  intros Hk. apply (Permutation_NoDup (l := zrange (2 ^ k))).
  - apply Permutation_sym. now apply graySequence_Permutation.
  - apply NoDup_zrange.
Qed.

Lemma toBitsString_inj a b k :
  1 <= k -> 0 <= a < 2 ^ k -> 0 <= b < 2 ^ k ->
  toBitsString a k = toBitsString b k -> a = b.
Proof.
  intros Hk Ha Hb Heq. rewrite !toBitsString_digits in Heq by lia.
  rewrite <- (binaryValue_digitsMSB (Z.to_nat k) a) by (rewrite Z2Nat.id; lia).
  rewrite <- (binaryValue_digitsMSB (Z.to_nat k) b) by (rewrite Z2Nat.id; lia).
  now rewrite Heq.
Qed.

Lemma NoDup_gray_labels k :
  1 <= k <= 30 -> NoDup (map (fun g => toBitsString g k) (graySequence k)).
Proof.
  intros Hk. apply NoDup_map_NoDup_ForallPairs; [|apply NoDup_graySequence; lia].
  intros a b Ha Hb. apply In_graySequence in Ha, Hb; try lia.
  apply toBitsString_inj; lia.
Qed.

(** Property X3: the rendered grid has [rows] rows of [cols] cells each
    and [cols] column labels; no two rows carry the same label and no two
    columns carry the same label. *)
Theorem grid_is_rectangular_with_distinct_labels st p :
  2 <= numInputs p <= 6 ->
  exists g,
    KMapGrid st p = JS.Normal (Some g)
    /\ Z.of_nat (List.length (gridRows g)) = rows g
    /\ Forall (fun row => Z.of_nat (List.length (snd row)) = cols g) (gridRows g)
    /\ Z.of_nat (List.length (colLabels g)) = cols g
    /\ NoDup (map fst (gridRows g))
    /\ NoDup (colLabels g).
Proof.
  intros Hn.
  destruct (KMapGrid_valid st p Hn)
    as [g [Hg [Hr [Hc [Hrows [Hcols [Hrg [Hcg [_ [_ [_ Hcells]]]]]]]]]]].
  assert (colLabels g = map (fun cg => toBitsString cg (colVars g)) (colGray g)) as Hlabels.
  { unfold KMapGrid in Hg.
    destruct (Z.ltb_spec (numInputs p) 2); [lia|].
    destruct (Z.ltb_spec 6 (numInputs p)); [lia|].
    cbn [orb] in Hg. injection Hg as <-. reflexivity. }
  destruct (axis_widths _ Hn) as [Hrw Hcw]. rewrite <- Hr in Hrw. rewrite <- Hc in Hcw.
  rewrite shl_one in Hrows, Hcols by lia.
  assert (Z.of_nat (List.length (rowGray g)) = 2 ^ rowVars g) as Hlr.
  { rewrite Hrg, graySequence_spec, length_map, zrange_length by lia.
    pose proof (pow2_le_30 (rowVars g) ltac:(lia)). lia. }
  assert (Z.of_nat (List.length (colGray g)) = 2 ^ colVars g) as Hlc.
  { rewrite Hcg, graySequence_spec, length_map, zrange_length by lia.
    pose proof (pow2_le_30 (colVars g) ltac:(lia)). lia. }
  exists g. split; [exact Hg|]. unfold rowsRendered in Hcells. rewrite Hcells, Hlabels.
  split; [rewrite length_map; lia|].
  split; [|split; [rewrite length_map; lia|split]].
  - apply Forall_forall. intros row Hrow.
    apply in_map_iff in Hrow as [rg [<- _]]. cbn [snd]. rewrite length_map. lia.
  - rewrite map_map. cbn [fst]. rewrite Hrg. apply NoDup_gray_labels. lia.
  - rewrite Hcg. apply NoDup_gray_labels. lia.
Qed.

Lemma grid_is_rectangular_with_distinct_labels_witness :
  exists g, KMapGrid exampleStore exampleProps = JS.Normal (Some g)
            /\ colLabels g = ["0"; "1"]%string
            /\ map fst (gridRows g) = ["0"; "1"]%string.
Proof.
  destruct (grid_is_rectangular_with_distinct_labels exampleStore exampleProps)
    as [g [Hg _]].
  - simpl. lia.
  - exists g. split; [exact Hg|].
    vm_compute in Hg. injection Hg as <-. split; reflexivity.
Defined.

(** ** Which cells show which value *)

Lemma inDomain_spec n m : inDomain n m = true <-> 0 <= m < 2 ^ n.
Proof.
  unfold inDomain. rewrite andb_true_iff, Z.leb_le, Z.ltb_lt. tauto.
Qed.

Lemma CellValue_eqb_eq a b : CellValue_eqb a b = true <-> a = b.
Proof. destruct a, b; simpl; split; congruence. Qed.

Lemma NoDup_map_filter {A B : Type} (f : A -> B) (q : A -> bool) l :
  NoDup (map f l) -> NoDup (map f (List.filter q l)).
Proof.
  induction l as [|x l IH]; simpl; intros Hnd; [constructor|].
  inversion Hnd as [|? ? Hnotin Hrest]; subst.
  destruct (q x); [|now apply IH]. simpl. constructor; [|now apply IH].
  intros Hin. apply Hnotin. apply in_map_iff in Hin as [y [Hy Hfy]].
  apply filter_In in Hfy. apply in_map_iff. exists y. tauto.
Qed.

Lemma cells_by_value_partition (l : list Cell) :
  (List.length (List.filter (fun c => CellValue_eqb (cellVal c) Val1) l)
   + List.length (List.filter (fun c => CellValue_eqb (cellVal c) ValX) l)
   + List.length (List.filter (fun c => CellValue_eqb (cellVal c) Val0) l))%nat
  = List.length l.
Proof.
  induction l as [|c l IH]; [reflexivity|].
  simpl. destruct (cellVal c); simpl; lia.
Qed.

Lemma minterm_cells_Permutation st p g :
  2 <= numInputs p <= 6 ->
  rowVars g = numInputs p / 2 ->
  colVars g = numInputs p - numInputs p / 2 ->
  rowGray g = graySequence (rowVars g) ->
  colGray g = graySequence (colVars g) ->
  rowsRendered st p g ->
  Permutation (map minterm (gridCells g)) (zrange (2 ^ numInputs p)).
Proof.
  intros Hn Hr Hc Hrg Hcg Hcells.
  destruct (axis_widths _ Hn) as [Hrw Hcw]. rewrite <- Hr in Hrw. rewrite <- Hc in Hcw.
  rewrite (map_minterm_gridCells st p g Hcells).
  replace (numInputs p) with (rowVars g + colVars g) by lia.
  pose proof (graySequence_Permutation (rowVars g) ltac:(lia)) as Hpr.
  pose proof (graySequence_Permutation (colVars g) ltac:(lia)) as Hpc.
  rewrite <- Hrg in Hpr. rewrite <- Hcg in Hpc.
  rewrite <- (combine_Permutation (rowGray g) (colGray g)) by (assumption || lia).
  apply Permutation_flat_map_pointwise. intros rg Hi.
  erewrite map_ext_in; [reflexivity|]. intros cg Hj. cbv beta.
  apply shl_bor_combine with (rowVars g); try lia.
  - apply In_zrange. now apply Permutation_in with (rowGray g).
  - apply In_zrange. now apply Permutation_in with (colGray g).
Qed.

Lemma cells_by_value_Permutation st p g :
  2 <= numInputs p <= 6 ->
  rowVars g = numInputs p / 2 ->
  colVars g = numInputs p - numInputs p / 2 ->
  rowGray g = graySequence (rowVars g) ->
  colGray g = graySequence (colVars g) ->
  rowsRendered st p g ->
  Permutation (map minterm (cellsWithValue Val1 g))
              (nodup Z.eq_dec (List.filter (inDomain (numInputs p)) (minterms p)))
  /\ Permutation (map minterm (cellsWithValue ValX g))
                 (nodup Z.eq_dec
                    (List.filter (fun m => inDomain (numInputs p) m
                                           && negb (JS.includes (minterms p) m))
                                 (dontCares p))).
Proof.
  intros Hn Hr Hc Hrg Hcg Hcells.
  pose proof (minterm_cells_Permutation st p g Hn Hr Hc Hrg Hcg Hcells) as Hperm.
  assert (NoDup (map minterm (gridCells g))) as Hnd.
  { apply (Permutation_NoDup (Permutation_sym Hperm)), NoDup_zrange. }
  assert (forall m, 0 <= m < 2 ^ numInputs p ->
            exists c, In c (gridCells g) /\ minterm c = m) as Hcell.
  { intros m Hm. apply In_zrange in Hm.
    apply (Permutation_in _ (Permutation_sym Hperm)) in Hm.
    apply in_map_iff in Hm as [c [Hc' Hin]]. eauto. }
  assert (forall c, In c (gridCells g) -> 0 <= minterm c < 2 ^ numInputs p) as Hrange.
  { intros c Hin. apply In_zrange. apply (Permutation_in _ Hperm). now apply in_map. }
  unfold cellsWithValue. split.
  - apply NoDup_Permutation; [now apply NoDup_map_filter | apply NoDup_nodup |].
    intros m. rewrite nodup_In, filter_In, inDomain_spec, in_map_iff. split.
    + intros [c [<- Hc']]. apply filter_In in Hc' as [Hin Hv].
      apply CellValue_eqb_eq in Hv.
      rewrite (cellVal_gridCells st p g c Hcells Hin) in Hv.
      apply (proj1 (valueForMinterm_cases p (minterm c))) in Hv. auto.
    + intros [Hm Hdom]. destruct (Hcell m Hdom) as [c [Hin <-]].
      exists c. split; [reflexivity|]. apply filter_In. split; [assumption|].
      apply CellValue_eqb_eq. rewrite (cellVal_gridCells st p g c Hcells Hin).
      now apply (proj1 (valueForMinterm_cases p (minterm c))).
  - apply NoDup_Permutation; [now apply NoDup_map_filter | apply NoDup_nodup |].
    intros m.
    rewrite nodup_In, filter_In, andb_true_iff, negb_true_iff, inDomain_spec,
      includes_not_In, in_map_iff.
    split.
    + intros [c [<- Hc']]. apply filter_In in Hc' as [Hin Hv].
      apply CellValue_eqb_eq in Hv.
      rewrite (cellVal_gridCells st p g c Hcells Hin) in Hv.
      apply (proj1 (proj2 (valueForMinterm_cases p (minterm c)))) in Hv.
      specialize (Hrange c Hin). tauto.
    + intros [Hm [Hdom Hnot]]. destruct (Hcell m Hdom) as [c [Hin <-]].
      exists c. split; [reflexivity|]. apply filter_In. split; [assumption|].
      apply CellValue_eqb_eq. rewrite (cellVal_gridCells st p g c Hcells Hin).
      apply (proj1 (proj2 (valueForMinterm_cases p (minterm c)))). tauto.
Qed.

(** Property X4: the cells showing ['1'] are, one cell each, the distinct
    entries of [minterms] that lie in [[0, 2 ^ n)]; the cells showing
    ['X'] are, one cell each, the distinct entries of [dontCares] that lie
    in the domain and are not minterms; with the cells showing ['0'] they
    make up the [2 ^ n] cells.  Entries outside the domain show nowhere. *)
Theorem cells_show_the_listed_minterms st p :
  2 <= numInputs p <= 6 ->
  exists g,
    KMapGrid st p = JS.Normal (Some g)
    /\ Permutation (map minterm (cellsWithValue Val1 g))
                   (nodup Z.eq_dec (List.filter (inDomain (numInputs p)) (minterms p)))
    /\ Permutation (map minterm (cellsWithValue ValX g))
                   (nodup Z.eq_dec
                      (List.filter (fun m => inDomain (numInputs p) m
                                             && negb (JS.includes (minterms p) m))
                                   (dontCares p)))
    /\ Z.of_nat (List.length (cellsWithValue Val1 g)
                 + List.length (cellsWithValue ValX g)
                 + List.length (cellsWithValue Val0 g)) = 2 ^ numInputs p.
Proof.
  intros Hn.
  destruct (KMapGrid_valid st p Hn)
    as [g [Hg [Hr [Hc [_ [_ [Hrg [Hcg [_ [_ [_ Hcells]]]]]]]]]]].
  destruct (cells_by_value_Permutation st p g Hn Hr Hc Hrg Hcg Hcells) as [Hon Hdc].
  exists g. split; [exact Hg|]. split; [exact Hon|]. split; [exact Hdc|].
  unfold cellsWithValue. rewrite cells_by_value_partition.
  rewrite <- (length_map minterm).
  rewrite (Permutation_length (minterm_cells_Permutation st p g Hn Hr Hc Hrg Hcg Hcells)).
  rewrite zrange_length.
  assert (0 < 2 ^ numInputs p) by (apply Z.pow_pos_nonneg; lia). lia.
Qed.

Lemma cells_show_the_listed_minterms_witness :
  exists g, KMapGrid exampleStore exampleOverlapProps = JS.Normal (Some g)
            /\ map minterm (cellsWithValue Val1 g) = [1]
            /\ map minterm (cellsWithValue ValX g) = [2].
Proof.
  destruct (cells_show_the_listed_minterms exampleStore exampleOverlapProps)
    as [g [Hg _]].
  - simpl. lia.
  - exists g. split; [exact Hg|].
    vm_compute in Hg. injection Hg as <-. split; reflexivity.
Defined.

(** ** What the grid depends on *)

Lemma includes_ext xs ys m :
  (In m xs <-> In m ys) -> JS.includes xs m = JS.includes ys m.
Proof.
  intros H. apply eq_true_iff_eq. now rewrite !includes_In.
Qed.

(** Property X5: the rendered grid depends on the two index lists only
    through which indexes of [[0, 2 ^ n)] they contain: order, repetition
    and entries outside the domain make no difference. *)
Theorem grid_depends_on_membership_in_domain st p p' :
  2 <= numInputs p <= 6 ->
  numInputs p' = numInputs p ->
  implicants p' = implicants p ->
  (forall m, 0 <= m < 2 ^ numInputs p ->
     (In m (minterms p') <-> In m (minterms p))
     /\ (In m (dontCares p') <-> In m (dontCares p))) ->
  KMapGrid st p' = KMapGrid st p.
Proof.
  intros Hn Hnum Himps Hmem.
  destruct p as [n ms ds imps], p' as [n' ms' ds' imps']. simpl in *. subst n' imps'.
  unfold KMapGrid. cbn [numInputs].
  destruct (Z.ltb_spec n 2); [lia|]. destruct (Z.ltb_spec 6 n); [lia|].
  cbn [orb]. cbv zeta. unfold JS.floorDiv. do 3 f_equal.
  destruct (axis_widths _ Hn) as [Hrw Hcw].
  apply map_ext_in. intros rg Hi. f_equal.
  apply map_ext_in. intros cg Hj.
  apply In_graySequence in Hi; [|lia]. apply In_graySequence in Hj; [|lia].
  unfold renderCell, valueForMinterm. cbn [minterms dontCares implicants numInputs].
  assert (0 <= JS.bor (JS.shl rg (n - n / 2)) cg < 2 ^ n) as Hdom.
  { rewrite (shl_bor_combine rg cg (n / 2)) by lia.
    assert (0 < 2 ^ (n - n / 2)) by (apply Z.pow_pos_nonneg; lia).
    assert (2 ^ (n / 2) * 2 ^ (n - n / 2) = 2 ^ n).
    { rewrite <- Z.pow_add_r by lia. f_equal. lia. }
    nia. }
  destruct (Hmem _ Hdom) as [Hms Hds].
  rewrite (includes_ext ms' ms _ Hms), (includes_ext ds' ds _ Hds). reflexivity.
Qed.

Lemma grid_depends_on_membership_in_domain_witness :
  KMapGrid exampleStore
    {| numInputs := 2; minterms := [3; 0; 3; 17]; dontCares := [-1];
       implicants := [0%nat; 1%nat] |}
  = KMapGrid exampleStore exampleProps.
Proof.
  apply grid_depends_on_membership_in_domain.
  - simpl. lia.
  - reflexivity.
  - reflexivity.
  - simpl. intros m Hm. split; split; intros; lia.
Defined.

(** ** The ring of a cell *)

Lemma ring_classes_nonempty i cls :
  nth_error GROUP_RING_CLASSES i = Some cls -> cls <> EmptyString.
Proof.
  do 5 (destruct i as [|i]; [simpl; intros [= <-]; discriminate|]).
  simpl. destruct i; discriminate.
Qed.

(** Property X6: a cell has no covering group exactly when no implicant
    of the list covers its minterm index, exactly when its first group
    index is -1, and exactly when its ring class is the empty string; the
    first group index is always a position of the implicant list or -1. *)
Theorem ring_shown_iff_covered st p :
  2 <= numInputs p <= 6 ->
  exists g,
    KMapGrid st p = JS.Normal (Some g)
    /\ forall c, In c (gridCells g) ->
         (coveringGroups c = [] <->
          forall r, In r (implicants p) -> ~ In (minterm c) (covered (st r)))
         /\ (firstGroupIndex c = -1 <-> coveringGroups c = [])
         /\ (groupRingClass c = Some EmptyString <-> coveringGroups c = [])
         /\ -1 <= firstGroupIndex c < Z.of_nat (List.length (implicants p)).
Proof.
  intros Hn.
  destruct (KMapGrid_valid st p Hn)
    as [g [Hg [_ [_ [_ [_ [_ [_ [_ [_ [_ Hcells]]]]]]]]]]].
  exists g. split; [exact Hg|]. intros c Hin.
  destruct (coveringGroups_gridCells st p g c Hcells Hin) as [Hcov [Hidx Hring]].
  rewrite filter_spec in Hcov.
  split.
  { rewrite Hcov. split.
    - intros Hnil r Hr Hm.
      assert (In r (List.filter
                (fun r => JS.includes (covered (st r)) (minterm c)) (implicants p))) as Hf
        by (apply filter_In; split; [assumption|now apply includes_In]).
      rewrite Hnil in Hf. contradiction.
    - intros Hnone.
      destruct (List.filter _ (implicants p)) as [|r rest] eqn:Hf; [reflexivity|].
      assert (In r (r :: rest)) as Hr by now left.
      rewrite <- Hf in Hr. apply filter_In in Hr as [Hr Hm].
      apply includes_In in Hm. now destruct (Hnone r Hr). }
  destruct (coveringGroups c) as [|first rest] eqn:Hgroups.
  - rewrite Hring, Hidx. cbn. repeat split; try reflexivity; lia.
  - symmetry in Hcov.
    destruct (filter_head_split _ _ _ _ Hcov) as [pre [post [Himps [Hpre Hfirst]]]].
    assert (~ In first pre) as Hnot.
    { intros Hin'. apply Hpre in Hin'. congruence. }
    assert (firstGroupIndex c = Z.of_nat (List.length pre)) as Hpos.
    { rewrite Hidx. unfold JS.indexOf.
      rewrite Himps, indexOf_from_split by assumption. lia. }
    rewrite Hring, Hpos.
    destruct (Z.leb_spec 0 (Z.of_nat (List.length pre))); [|lia].
    destruct (ring_class_defined (Z.of_nat (List.length pre)) ltac:(lia))
      as [Heq [cls Hcls]].
    rewrite Heq, Hcls. pose proof (ring_classes_nonempty _ _ Hcls) as Hne.
    rewrite Himps, length_app. cbn [List.length].
    repeat split; try discriminate; try lia.
    intros [= Hempty]. now contradiction Hne.
Qed.

Lemma ring_shown_iff_covered_witness :
  exists g, KMapGrid exampleStore exampleOverlayProps = JS.Normal (Some g)
            /\ map groupRingClass (gridCells g) =
               [Some "ring-2 ring-emerald-400/70"; Some "ring-2 ring-violet-400/70";
                Some ""; Some "ring-2 ring-sky-400/70"]%string.
Proof.
  destruct (ring_shown_iff_covered exampleStore exampleOverlayProps) as [g [Hg _]].
  - simpl. lia.
  - exists g. split; [exact Hg|].
    vm_compute in Hg. injection Hg as <-. reflexivity.
Defined.

(** ** The reflected structure of the Gray sequence *)

Lemma complement_testbit i k t :
  0 <= i < 2 ^ k -> 0 <= t < k ->
  Z.testbit (2 ^ k - 1 - i) t = negb (Z.testbit i t).
Proof.
  intros Hi Ht.
  assert (2 ^ k - 1 - i = Z.lnot i mod 2 ^ k) as ->.
  { unfold Z.lnot. rewrite <- Z.sub_1_r.
    replace (- i - 1) with (2 ^ k - 1 - i + (-1) * 2 ^ k) by lia.
    rewrite Z.mod_add by lia. symmetry. apply Z.mod_small. lia. }
  rewrite Z.mod_pow2_bits_low by lia. apply Z.lnot_spec. lia.
Qed.

Lemma grayOf_upper_half i k :
  0 <= k -> 0 <= i < 2 ^ k ->
  grayOf (2 ^ k + i) = grayOf (2 ^ k - 1 - i) + 2 ^ k.
Proof.
  intros Hk Hi.
  pose proof (grayOf_range (2 ^ k - 1 - i) k ltac:(lia)) as Hlow.
  apply Z.bits_inj'. intros t Ht.
  rewrite grayOf_testbit by lia.
  replace (2 ^ k + i) with (1 * 2 ^ k + i) by lia.
  replace (grayOf (2 ^ k - 1 - i) + 2 ^ k)
    with (1 * 2 ^ k + grayOf (2 ^ k - 1 - i)) by lia.
  rewrite !combine_testbit by lia.
  destruct (Z.ltb_spec t k) as [Hlt|Hge].
  - rewrite grayOf_testbit, complement_testbit by lia.
    destruct (Z.ltb_spec (t + 1) k) as [Hlt'|Hge'].
    + rewrite complement_testbit by lia.
      destruct (Z.testbit i t), (Z.testbit i (t + 1)); reflexivity.
    + replace (t + 1 - k) with 0 by lia.
      rewrite (testbit_above (2 ^ k - 1 - i) k (t + 1)) by lia.
      change (Z.testbit 1 0) with true. destruct (Z.testbit i t); reflexivity.
  - destruct (Z.ltb_spec (t + 1) k); [lia|].
    destruct (Z.eq_dec t k) as [->|Hne].
    + replace (k - k) with 0 by lia. replace (k + 1 - k) with 1 by lia. reflexivity.
    + rewrite !(testbit_above 1 1) by lia. reflexivity.
Qed.

Lemma rev_zrange n :
  rev (zrange n) = map (fun i => n - 1 - i) (zrange n).
Proof.
  destruct (Z.lt_ge_cases n 0) as [Hneg|Hn].
  - unfold zrange. replace (Z.to_nat n) with 0%nat by lia. reflexivity.
  - rewrite <- (Z2Nat.id n Hn). generalize (Z.to_nat n) as k. clear n Hn.
    induction k as [|k IH]; [reflexivity|].
    replace (Z.of_nat (S k)) with (Z.of_nat k + 1) by lia.
    assert (zrange (Z.of_nat k + 1) = zrange (Z.of_nat k) ++ [Z.of_nat k]) as Hlast.
    { rewrite zrange_app by lia. change (zrange 1) with [0]. cbn [map].
      now rewrite Z.add_0_r. }
    assert (zrange (Z.of_nat k + 1) =
            0 :: map (fun x => 1 + x) (zrange (Z.of_nat k))) as Hfirst.
    { rewrite Z.add_comm, zrange_app by lia. reflexivity. }
    rewrite Hlast at 1. rewrite Hfirst.
    rewrite rev_app_distr, IH. cbn [map rev app]. rewrite map_map.
    f_equal; [lia|]. apply map_ext. intros i. lia.
Qed.

(** Property X7: the Gray sequence is the reflected binary code: for
    [0 <= k <= 29] the sequence of width [k + 1] is the sequence of width
    [k] followed by its reverse with bit [k] set. *)
Theorem graySequence_is_reflected k :
  0 <= k <= 29 ->
  graySequence (k + 1) =
  graySequence k ++ map (fun g => g + 2 ^ k) (rev (graySequence k)).
Proof.
  intros Hk. rewrite !graySequence_spec by lia.
  assert (0 < 2 ^ k) by (apply Z.pow_pos_nonneg; lia).
  rewrite Z.pow_add_r by lia. change (2 ^ 1) with 2.
  replace (2 ^ k * 2) with (2 ^ k + 2 ^ k) by lia.
  rewrite zrange_app, map_app by lia. f_equal.
  rewrite <- map_rev, rev_zrange, !map_map.
  apply map_ext_in. intros i Hi. apply In_zrange in Hi.
  now apply grayOf_upper_half.
Qed.

Lemma graySequence_is_reflected_witness :
  graySequence (2 + 1) =
  graySequence 2 ++ map (fun g => g + 2 ^ 2) (rev (graySequence 2)).
Proof.
  apply graySequence_is_reflected. lia.
Defined.

(** ** Bit strings of any number *)

Lemma replicate_zero_pad m (k j : nat) :
  0 <= m < 2 ^ Z.of_nat k ->
  (JS.replicate j "0" ++ digitsMSB m k)%string = digitsMSB m (j + k).
Proof. intros Hm. now rewrite digitsMSB_pad. Qed.

(** Property X8: for every non-negative [m] and every width, reading
    [toBitsString m width] as a binary numeral gives [m] back; the string
    has at least [width] characters and more when [m] does not fit in
    [width] bits: no digit is ever cut. *)
Theorem toBitsString_never_truncates m width :
  0 <= m ->
  binaryValue (toBitsString m width) = m
  /\ width <= Z.of_nat (String.length (toBitsString m width))
  /\ (2 ^ width <= m -> width < Z.of_nat (String.length (toBitsString m width))).
Proof.
  intros Hm. unfold toBitsString, JS.padStart.
  destruct m as [|q|q]; [| |lia].
  - cbn [JS.toString2 String.length].
    destruct (Z.leb_spec width (Z.of_nat 1)).
    + cbn [String.length]. split; [reflexivity|]. split; [lia|]. intros Hpow.
      destruct (Z.lt_ge_cases width 0) as [Hneg|Hpos]; [lia|].
      assert (0 < 2 ^ width) by (apply Z.pow_pos_nonneg; lia). lia.
    + change "0"%string with (digitsMSB 0 1).
      rewrite replicate_zero_pad by (simpl; lia).
      rewrite digitsMSB_length. split; [|split; [lia|]].
      * apply binaryValue_digitsMSB. split; [lia|]. apply Z.pow_pos_nonneg; lia.
      * intros Hpow. assert (0 < 2 ^ width) by (apply Z.pow_pos_nonneg; lia). lia.
  - cbn [JS.toString2]. rewrite posToString2_digits, digitsMSB_length.
    destruct (size_nat_bounds q) as [Hlow Hhigh].
    destruct (Z.leb_spec width (Z.of_nat (Pos.size_nat q))) as [Hle|Hgt].
    + rewrite digitsMSB_length. split; [|split; [lia|]].
      * apply binaryValue_digitsMSB. lia.
      * intros Hpow.
        destruct (Z.eq_dec width (Z.of_nat (Pos.size_nat q))) as [Heq|]; [|lia].
        rewrite Heq in Hpow. lia.
    + rewrite replicate_zero_pad by lia. rewrite digitsMSB_length.
      assert (2 ^ Z.of_nat (Pos.size_nat q) <= 2 ^ width)
        by (apply Z.pow_le_mono_r; lia).
      assert (2 ^ Z.of_nat (Pos.size_nat q)
              <= 2 ^ Z.of_nat (Z.to_nat (width - Z.of_nat (Pos.size_nat q))
                                + Pos.size_nat q))
        by (apply Z.pow_le_mono_r; lia).
      split; [|split; [lia|lia]].
      apply binaryValue_digitsMSB. lia.
Qed.

Lemma toBitsString_never_truncates_witness :
  toBitsString 9 2 = "1001"%string /\ binaryValue (toBitsString 9 2) = 9.
Proof.
  destruct (toBitsString_never_truncates 9 2) as [Hvalue _].
  - lia.
  - split; [reflexivity | exact Hvalue].
Defined.

(** * Properties of the input fields *)

(** ** Splitting and trimming *)

Lemma split_nonempty sep s : JSString.split sep s <> [].
Proof.
  destruct s as [|c s]; simpl; [discriminate|].
  destruct (Ascii.eqb c sep); [discriminate|].
  destruct (JSString.split sep s); discriminate.
Qed.

Lemma split_app sep a b :
  JSString.split sep (a ++ String sep b) =
  JSString.split sep a ++ JSString.split sep b.
Proof.
  induction a as [|c a IH]; cbn [append JSString.split].
  - now rewrite Ascii.eqb_refl.
  - destruct (Ascii.eqb c sep); [now rewrite IH|].
    rewrite IH. pose proof (split_nonempty sep a) as Hne.
    destruct (JSString.split sep a); [contradiction|reflexivity].
Qed.

Lemma split_without_separator sep s :
  allChars (fun c => negb (Ascii.eqb c sep)) s = true ->
  JSString.split sep s = [s].
Proof.
  induction s as [|c s IH]; cbn [allChars JSString.split]; [reflexivity|].
  intros H. apply andb_true_iff in H as [Hc Hs].
  apply negb_true_iff in Hc. now rewrite Hc, IH.
Qed.

Lemma trimStart_head s c rest :
  JSString.trimStart s = String c rest -> JSString.isWhiteSpace c = false.
Proof.
  induction s as [|d s IH]; cbn [JSString.trimStart]; [discriminate|].
  destruct (JSString.isWhiteSpace d) eqn:Hd; [exact IH|].
  intros [= <- _]. exact Hd.
Qed.

Lemma trimEnd_cons c s :
  JSString.isWhiteSpace c = false ->
  JSString.trimEnd (String c s) = String c (JSString.trimEnd s).
Proof.
  intros Hc. cbn [JSString.trimEnd]. rewrite Hc.
  destruct (JSString.trimEnd s); reflexivity.
Qed.

Lemma trimStart_blank s :
  JSString.trimStart s = EmptyString <-> allChars JSString.isWhiteSpace s = true.
Proof.
  induction s as [|c s IH]; cbn [JSString.trimStart allChars]; [tauto|].
  destruct (JSString.isWhiteSpace c); cbn [andb]; [exact IH|].
  split; discriminate.
Qed.

Lemma trim_blank s :
  JSString.trim s = EmptyString <-> allChars JSString.isWhiteSpace s = true.
Proof.
  rewrite <- trimStart_blank. unfold JSString.trim. split.
  - intros Htrim. destruct (JSString.trimStart s) as [|c rest] eqn:Hs; [reflexivity|].
    rewrite (trimEnd_cons c rest (trimStart_head s c rest Hs)) in Htrim. discriminate.
  - intros ->. reflexivity.
Qed.

Lemma trimStart_app_blank ws s :
  allChars JSString.isWhiteSpace ws = true ->
  JSString.trimStart (ws ++ s) = JSString.trimStart s.
Proof.
  induction ws as [|c ws IH]; cbn [allChars append JSString.trimStart]; [reflexivity|].
  intros H. apply andb_true_iff in H as [Hc Hws]. rewrite Hc. now apply IH.
Qed.

(** ** Reading one number *)

Lemma digitsPrefix_trimEnd s : forall acc,
  digitsPrefix (JSString.trimEnd s) acc = digitsPrefix s acc.
Proof.
  induction s as [|c s IH]; intros acc; [reflexivity|].
  cbn [JSString.trimEnd].
  destruct (JSString.trimEnd s) as [|d kept] eqn:Hkept.
  - destruct (JSString.isWhiteSpace c) eqn:Hws.
    + cbn [digitsPrefix]. destruct (digitValue c) as [v|] eqn:Hv; [|reflexivity].
      exfalso. revert Hws Hv. unfold JSString.isWhiteSpace, digitValue.
      destruct c as [[] [] [] [] [] [] [] []]; vm_compute; congruence.
    + cbn [digitsPrefix]. destruct (digitValue c); [|reflexivity].
      rewrite <- IH. reflexivity.
  - cbn [digitsPrefix]. destruct (digitValue c); [|reflexivity].
    rewrite <- IH. reflexivity.
Qed.

(** The [trim] that [parseList] applies to a piece before [parseInt] makes
    no difference. *)
Lemma parseInt10_trim toNumber s :
  parseInt10 toNumber (JSString.trim s) = parseInt10 toNumber s.
Proof.
  unfold parseInt10, JSString.trim.
  destruct (JSString.trimStart s) as [|c rest] eqn:Hs; [reflexivity|].
  pose proof (trimStart_head s c rest Hs) as Hc.
  rewrite (trimEnd_cons c rest Hc). cbn [JSString.trimStart]. rewrite Hc.
  destruct (Ascii.eqb c "-"); [now rewrite digitsPrefix_trimEnd|].
  destruct (Ascii.eqb c "+"); [now rewrite digitsPrefix_trimEnd|].
  rewrite <- (trimEnd_cons c rest Hc). now rewrite digitsPrefix_trimEnd.
Qed.

(** ** Reading a list *)

Lemma finiteValues_app xs ys :
  finiteValues (xs ++ ys) = finiteValues xs ++ finiteValues ys.
Proof.
  induction xs as [|x xs IH]; [reflexivity|].
  destruct x; simpl; now rewrite IH.
Qed.

(** The early return of [parseList] on a blank string is what the general
    path would compute as well. *)
Lemma parseList_pieces toNumber s :
  parseList toNumber s =
  finiteValues
    (List.filter isFinite (map (parseInt10 toNumber) (JSString.split "," s))).
Proof.
  unfold parseList. rewrite filter_spec.
  rewrite (map_ext _ (parseInt10 toNumber) (parseInt10_trim toNumber)).
  destruct (JSString.trim s) as [|c rest] eqn:Htrim; [|reflexivity].
  apply trim_blank in Htrim.
  rewrite split_without_separator.
  - cbn [map]. unfold parseInt10.
    rewrite (proj2 (trimStart_blank s) Htrim). reflexivity.
  - clear -Htrim. induction s as [|c s IH]; [reflexivity|].
    cbn [allChars] in *. apply andb_true_iff in Htrim as [Hc Hs].
    rewrite (IH Hs), andb_true_r.
    destruct (Ascii.eqb_spec c ",") as [->|]; [discriminate Hc|reflexivity].
Qed.

Lemma parseList_app_comma toNumber a b :
  parseList toNumber (a ++ String "," b) =
  parseList toNumber a ++ parseList toNumber b.
Proof.
  rewrite !parseList_pieces, split_app, map_app, filter_app.
  apply finiteValues_app.
Qed.

(** Property X9: [parseList] reads a text piece by piece: the list read
    from two texts joined by a comma is the list read from the first
    followed by the list read from the second, also when one of them is
    blank or holds no number. *)
Theorem parseList_joins_at_commas toNumber a b :
  parseList toNumber (a ++ "," ++ b) =
  parseList toNumber a ++ parseList toNumber b.
Proof.
  cbn [append]. rewrite !parseList_pieces.
  rewrite split_app, map_app, filter_app.
  apply finiteValues_app.
Qed.

(** ** Decimal numerals *)

Lemma digitChar_facts d :
  0 <= d <= 9 ->
  digitValue (digitChar d) = Some d
  /\ JSString.isWhiteSpace (digitChar d) = false
  /\ Ascii.eqb (digitChar d) "-" = false
  /\ Ascii.eqb (digitChar d) "+" = false
  /\ Ascii.eqb (digitChar d) "," = false.
Proof.
  intros Hd.
  assert (d = 0 \/ d = 1 \/ d = 2 \/ d = 3 \/ d = 4 \/ d = 5 \/ d = 6 \/ d = 7
          \/ d = 8 \/ d = 9) as Hcases by lia.
  repeat (destruct Hcases as [->|Hcases]; [repeat split; reflexivity|]).
  subst d. repeat split; reflexivity.
Qed.

Lemma tenth_bounds n :
  10 <= n -> 1 <= n / 10 /\ n / 10 < n /\ 2 * (n / 10) <= n.
Proof.
  intros Hn. pose proof (Z.mul_div_le n 10 ltac:(lia)).
  assert (1 <= n / 10) by (apply Z.div_le_lower_bound; lia). lia.
Qed.

Lemma decimal_fuel_irrelevant f1 : forall f2 n,
  0 <= n < 2 ^ Z.of_nat f1 -> n < 2 ^ Z.of_nat f2 ->
  (1 <= f1)%nat -> (1 <= f2)%nat ->
  decimal_fuel f1 n = decimal_fuel f2 n.
Proof.
  induction f1 as [|f1 IH]; intros f2 n H1 H2 Hf1 Hf2; [lia|].
  destruct f2 as [|f2]; [lia|]. cbn [decimal_fuel].
  destruct (Z.ltb_spec n 10) as [|Hge]; [reflexivity|]. f_equal.
  destruct (tenth_bounds n Hge) as [Hone [_ Hhalf]].
  rewrite Nat2Z.inj_succ, Z.pow_succ_r in H1, H2 by lia.
  assert (forall f : nat, 1 < 2 ^ Z.of_nat f -> (1 <= f)%nat) as Hpos.
  { intros [|f] Hf; [simpl in Hf; lia|lia]. }
  apply IH; try lia; apply Hpos; lia.
Qed.

Lemma decimal_unfold n :
  0 <= n ->
  decimal n =
  if n <? 10 then String (digitChar n) EmptyString
  else (decimal (n / 10) ++ String (digitChar (n mod 10)) EmptyString)%string.
Proof.
  intros Hn. unfold decimal at 1. cbn [decimal_fuel].
  destruct (Z.ltb_spec n 10) as [|Hge]; [reflexivity|]. f_equal.
  destruct (tenth_bounds n Hge) as [Hone [_ Hhalf]].
  pose proof (Z.log2_spec n ltac:(lia)) as Hlog.
  pose proof (Z.log2_spec (n / 10) ltac:(lia)) as Hlog'.
  pose proof (Z.log2_nonneg (n / 10)) as Hnn.
  assert (3 <= Z.log2 n) by (apply Z.log2_le_pow2; simpl; lia).
  rewrite Z.pow_succ_r in Hlog, Hlog' by lia.
  unfold decimal. apply decimal_fuel_irrelevant; try lia.
  - rewrite Z2Nat.id by lia. lia.
  - rewrite Nat2Z.inj_succ, Z2Nat.id, Z.pow_succ_r by lia. lia.
Qed.

Lemma append_assoc_string (a b c : string) :
  ((a ++ b) ++ c)%string = (a ++ (b ++ c))%string.
Proof. induction a as [|x a IH]; simpl; [reflexivity|now rewrite IH]. Qed.

Lemma digitsPrefix_stops rest acc :
  noLeadingDigit rest = true -> digitsPrefix rest acc = acc.
Proof.
  destruct rest as [|c rest]; [reflexivity|].
  unfold noLeadingDigit, isDigit. cbn [digitsPrefix].
  destruct (digitValue c); [discriminate|reflexivity].
Qed.

(** Reading the decimal writing of [n] leaves [n] in the accumulator. *)
Lemma digitsPrefix_decimal n : 0 <= n -> forall rest,
  digitsPrefix (decimal n ++ rest) None = digitsPrefix rest (Some n).
Proof.
  intros Hn0. generalize Hn0. pattern n.
  apply Z_lt_induction; [clear n Hn0 | exact Hn0].
  intros n IH Hn rest. rewrite decimal_unfold by assumption.
  pose proof (Z.mod_pos_bound n 10 ltac:(lia)) as Hmod.
  destruct (Z.ltb_spec n 10) as [Hlt|Hge].
  - cbn [append digitsPrefix].
    destruct (digitChar_facts n ltac:(lia)) as [-> _]. reflexivity.
  - destruct (tenth_bounds n Hge) as [Hone [Hless _]].
    rewrite append_assoc_string. cbn [append].
    rewrite (IH (n / 10)) by lia. cbn [digitsPrefix].
    destruct (digitChar_facts (n mod 10) ltac:(lia)) as [-> _]. do 2 f_equal.
    pose proof (Z.div_mod n 10 ltac:(lia)). lia.
Qed.

Lemma decimal_head n :
  0 <= n -> exists c rest,
    decimal n = String c rest
    /\ isDigit c = true
    /\ JSString.isWhiteSpace c = false
    /\ Ascii.eqb c "-" = false /\ Ascii.eqb c "+" = false.
Proof.
  intros Hn0. generalize Hn0. pattern n.
  apply Z_lt_induction; [clear n Hn0 | exact Hn0].
  intros n IH Hn. rewrite decimal_unfold by assumption.
  destruct (Z.ltb_spec n 10) as [Hlt|Hge].
  - destruct (digitChar_facts n ltac:(lia)) as [Hv [Hws [Hm [Hp _]]]].
    do 2 eexists. split; [reflexivity|]. unfold isDigit. rewrite Hv.
    repeat split; assumption || reflexivity.
  - destruct (tenth_bounds n Hge) as [Hone [Hless _]].
    destruct (IH (n / 10) ltac:(lia) ltac:(lia)) as [c [rest [-> Hc]]].
    do 2 eexists. split; [reflexivity|exact Hc].
Qed.

Lemma decimal_allDigits n : 0 <= n -> allChars isDigit (decimal n) = true.
Proof.
  intros Hn0. generalize Hn0. pattern n.
  apply Z_lt_induction; [clear n Hn0 | exact Hn0].
  intros n IH Hn. rewrite decimal_unfold by assumption.
  pose proof (Z.mod_pos_bound n 10 ltac:(lia)) as Hmod.
  assert (forall a c, allChars isDigit a = true -> isDigit c = true ->
            allChars isDigit (a ++ String c EmptyString) = true) as Hsnoc.
  { intros a c Ha Hc. induction a as [|x a IHa]; cbn [append allChars] in *.
    - now rewrite Hc.
    - apply andb_true_iff in Ha as [Hx Ha]. now rewrite Hx, IHa. }
  destruct (Z.ltb_spec n 10) as [Hlt|Hge].
  - cbn [allChars]. unfold isDigit.
    destruct (digitChar_facts n ltac:(lia)) as [-> _]. reflexivity.
  - destruct (tenth_bounds n Hge) as [Hone [Hless _]].
    apply Hsnoc; [apply IH; lia|]. unfold isDigit.
    destruct (digitChar_facts (n mod 10) ltac:(lia)) as [-> _]. reflexivity.
Qed.

(** The reading of one piece: white space, an optional sign, a decimal
    numeral, then anything that does not start with a digit. *)
Lemma parseInt10_numeral toNumber ws n rest :
  allChars JSString.isWhiteSpace ws = true ->
  0 <= n -> noLeadingDigit rest = true ->
  parseInt10 toNumber (ws ++ decimal n ++ rest) = toNumber n
  /\ parseInt10 toNumber (ws ++ String "+" (decimal n ++ rest)) = toNumber n
  /\ parseInt10 toNumber (ws ++ String "-" (decimal n ++ rest)) = negate (toNumber n).
Proof.
  intros Hws Hn Hrest. unfold parseInt10.
  destruct (decimal_head n Hn) as [c [tail [Hdec [_ [Hc [Hminus Hplus]]]]]].
  pose proof (digitsPrefix_decimal n Hn rest) as Hread.
  rewrite (digitsPrefix_stops rest _ Hrest) in Hread.
  split; [|split].
  - assert ((decimal n ++ rest)%string = String c (tail ++ rest)) as Ht
      by now rewrite Hdec.
    rewrite trimStart_app_blank by assumption.
    rewrite Ht in *. cbn [JSString.trimStart]. rewrite Hc, Hminus, Hplus.
    now rewrite Hread.
  - assert (forall x, JSString.trimStart (String "+" x) = String "+" x) as Hsign
      by reflexivity.
    rewrite trimStart_app_blank by assumption.
    rewrite Hsign. change (Ascii.eqb "+" "-") with false.
    change (Ascii.eqb "+" "+") with true. cbv iota beta. now rewrite Hread.
  - assert (forall x, JSString.trimStart (String "-" x) = String "-" x) as Hsign
      by reflexivity.
    rewrite trimStart_app_blank by assumption.
    rewrite Hsign. change (Ascii.eqb "-" "-") with true.
    cbv iota beta. now rewrite Hread.
Qed.

Lemma allChars_app q a b :
  allChars q (a ++ b) = allChars q a && allChars q b.
Proof.
  induction a as [|c a IH]; cbn [append allChars]; [reflexivity|].
  now rewrite IH, andb_assoc.
Qed.

Lemma allChars_impl (q q' : ascii -> bool) s :
  (forall c, q c = true -> q' c = true) ->
  allChars q s = true -> allChars q' s = true.
Proof.
  intros Himp. induction s as [|c s IH]; cbn [allChars]; [reflexivity|].
  intros H. apply andb_true_iff in H as [Hc Hs]. now rewrite (Himp c Hc), IH.
Qed.

Lemma whiteSpace_not_comma c :
  JSString.isWhiteSpace c = true -> negb (Ascii.eqb c ",") = true.
Proof.
  destruct (Ascii.eqb_spec c ",") as [->|]; [discriminate|reflexivity].
Qed.

Lemma digit_not_comma c : isDigit c = true -> negb (Ascii.eqb c ",") = true.
Proof.
  destruct (Ascii.eqb_spec c ",") as [->|]; [discriminate|reflexivity].
Qed.

Lemma parseList_one_piece toNumber piece :
  allChars (fun c => negb (Ascii.eqb c ",")) piece = true ->
  parseList toNumber piece = finiteValues [parseInt10 toNumber piece].
Proof.
  intros Hpiece. rewrite parseList_pieces, split_without_separator by assumption.
  cbn [map List.filter]. destruct (parseInt10 toNumber piece); reflexivity.
Qed.

Lemma exact_negate toNumber n :
  exactUpTo2p53 toNumber -> 0 <= n <= 2 ^ 53 ->
  toNumber n = Finite n /\ negate (toNumber n) = Finite (- n).
Proof. intros Hexact Hn. rewrite (Hexact n Hn). split; reflexivity. Qed.

(** Property X10: a piece made of white space, an optional sign, the
    decimal writing of an integer [n] up to [2 ^ 53] and then any text
    without a comma that does not start with a digit is read as [n] (or
    [- n]): what follows the digits is ignored without notice. *)
Theorem parseList_reads_leading_digits toNumber ws n rest :
  exactUpTo2p53 toNumber ->
  allChars JSString.isWhiteSpace ws = true ->
  0 <= n <= 2 ^ 53 ->
  noLeadingDigit rest = true ->
  allChars (fun c => negb (Ascii.eqb c ",")) rest = true ->
  parseList toNumber (ws ++ decimal n ++ rest) = [n]
  /\ parseList toNumber (ws ++ "+" ++ decimal n ++ rest) = [n]
  /\ parseList toNumber (ws ++ "-" ++ decimal n ++ rest) = [- n].
Proof.
  intros Hexact Hws Hn Hrest Hcomma.
  destruct (parseInt10_numeral toNumber ws n rest Hws ltac:(lia) Hrest)
    as [Hplain [Hplus Hminus]].
  destruct (exact_negate toNumber n Hexact Hn) as [Hval Hneg].
  assert (allChars (fun c => negb (Ascii.eqb c ",")) ws = true) as Hws'
    by (apply (allChars_impl JSString.isWhiteSpace); [apply whiteSpace_not_comma|assumption]).
  assert (allChars (fun c => negb (Ascii.eqb c ",")) (decimal n) = true) as Hdec
    by (apply (allChars_impl isDigit); [apply digit_not_comma|apply decimal_allDigits; lia]).
  split; [|split].
  - rewrite parseList_one_piece by (rewrite !allChars_app, Hws', Hdec, Hcomma; reflexivity).
    now rewrite Hplain, Hval.
  - cbn [append].
    rewrite parseList_one_piece
      by (rewrite allChars_app; cbn [allChars];
          rewrite allChars_app, Hws', Hdec, Hcomma; reflexivity).
    now rewrite Hplus, Hval.
  - cbn [append].
    rewrite parseList_one_piece
      by (rewrite allChars_app; cbn [allChars];
          rewrite allChars_app, Hws', Hdec, Hcomma; reflexivity).
    now rewrite Hminus, Hneg.
Qed.

Lemma roundToDouble_exact : exactUpTo2p53 roundToDouble.
Proof.
  intros z Hz. unfold roundToDouble.
  destruct (Z.ltb_spec z (2 ^ 53)) as [|Hge]; [reflexivity|].
  replace z with (2 ^ 53) by lia. reflexivity.
Qed.

Lemma parseList_reads_leading_digits_witness :
  parseList roundToDouble "  12abc" = [12]
  /\ parseList roundToDouble "-3.75" = [-3].
Proof.
  destruct (parseList_reads_leading_digits roundToDouble "  " 12 "abc")
    as [H12 _]; try reflexivity.
  - exact roundToDouble_exact.
  - simpl. lia.
  - destruct (parseList_reads_leading_digits roundToDouble "" 3 ".75")
      as [_ [_ H3]]; try reflexivity.
    + exact roundToDouble_exact.
    + simpl. lia.
    + split; [exact H12 | exact H3].
Defined.

(** ** Reading back a written list *)

Lemma parseList_leading_space toNumber s :
  parseList toNumber (String " " s) = parseList toNumber s.
Proof.
  rewrite !parseList_pieces. cbn [JSString.split].
  change (Ascii.eqb " " ",") with false. cbv iota.
  pose proof (split_nonempty "," s) as Hne.
  destruct (JSString.split "," s) as [|piece pieces]; [contradiction|].
  cbn [map]. reflexivity.
Qed.

Lemma parseList_decimalZ toNumber x :
  exactUpTo2p53 toNumber -> - 2 ^ 53 <= x <= 2 ^ 53 ->
  parseList toNumber (decimalZ x) = [x].
Proof.
  intros Hexact Hx. unfold decimalZ.
  destruct (Z.ltb_spec x 0) as [Hneg|Hpos].
  - destruct (parseInt10_numeral toNumber EmptyString (- x) EmptyString)
      as [_ [_ Hminus]]; try reflexivity; [lia|].
    destruct (exact_negate toNumber (- x) Hexact ltac:(lia)) as [_ Hval].
    cbn [append] in Hminus.
    assert ((decimal (- x) ++ "")%string = decimal (- x)) as Hnil.
    { generalize (decimal (- x)). intros d.
      induction d as [|c d IH]; simpl; [reflexivity|now rewrite IH]. }
    rewrite Hnil in Hminus.
    rewrite parseList_one_piece.
    + rewrite Hminus, Hval. cbn [finiteValues]. f_equal. lia.
    + cbn [allChars]. change (negb (Ascii.eqb "-" ",")) with true. cbn [andb].
      apply (allChars_impl isDigit); [apply digit_not_comma|].
      apply decimal_allDigits. lia.
  - destruct (parseInt10_numeral toNumber EmptyString x EmptyString)
      as [Hplain _]; try reflexivity; [lia|].
    destruct (exact_negate toNumber x Hexact ltac:(lia)) as [Hval _].
    cbn [append] in Hplain.
    assert ((decimal x ++ "")%string = decimal x) as Hnil.
    { generalize (decimal x). intros d.
      induction d as [|c d IH]; simpl; [reflexivity|now rewrite IH]. }
    rewrite Hnil in Hplain.
    rewrite parseList_one_piece.
    + now rewrite Hplain, Hval.
    + apply (allChars_impl isDigit); [apply digit_not_comma|].
      apply decimal_allDigits. lia.
Qed.

(** Property X11: [parseList] reads back a list of integers between
    [- 2 ^ 53] and [2 ^ 53] written in decimal and joined by a comma and a
    space (the way the page prints the [covered] lists) or by a comma
    alone. *)
Theorem parseList_reads_back_written_list toNumber xs :
  exactUpTo2p53 toNumber ->
  (forall x, In x xs -> - 2 ^ 53 <= x <= 2 ^ 53) ->
  parseList toNumber (String.concat ", " (map decimalZ xs)) = xs
  /\ parseList toNumber (String.concat "," (map decimalZ xs)) = xs.
Proof.
  intros Hexact Hxs. induction xs as [|x xs IH]; [split; reflexivity|].
  assert (- 2 ^ 53 <= x <= 2 ^ 53) as Hx by (apply Hxs; now left).
  destruct IH as [IHspace IHplain]; [intros y Hy; apply Hxs; now right|].
  destruct xs as [|y xs].
  - cbn [map String.concat]. split; now apply parseList_decimalZ.
  - cbn [map String.concat] in *. split.
    + change (", " ++ ?s)%string with (String "," (String " " s)).
      rewrite parseList_app_comma, parseList_leading_space.
      rewrite parseList_decimalZ by assumption. now rewrite IHspace.
    + change ("," ++ ?s)%string with (String "," s).
      rewrite parseList_app_comma.
      rewrite parseList_decimalZ by assumption. now rewrite IHplain.
Qed.

Lemma parseList_reads_back_written_list_witness :
  parseList roundToDouble (String.concat ", " (map decimalZ [0; 2; 8; 10])) = [0; 2; 8; 10].
Proof.
  apply (parseList_reads_back_written_list roundToDouble [0; 2; 8; 10]).
  - exact roundToDouble_exact.
  - intros x Hx. simpl in Hx. destruct Hx as [<-|[<-|[<-|[<-|[]]]]]; simpl; lia.
Defined.

(** ** The validation performed by [run] *)

Lemma some_negative all :
  existsb (fun m => negb (isInteger m) || (m <? 0)) all = true <->
  exists m, In m all /\ m < 0.
Proof.
  rewrite existsb_exists. unfold isInteger. cbn [negb orb].
  split; intros [m [Hin Hm]]; exists m; split; try assumption.
  - now apply Z.ltb_lt.
  - now apply Z.ltb_lt.
Qed.

Lemma mathMax_spec rest : forall first,
  In (mathMax first rest) (first :: rest)
  /\ forall m, In m (first :: rest) -> m <= mathMax first rest.
Proof.
  unfold mathMax. induction rest as [|x rest IH]; intros first; cbn [fold_left].
  - split; [now left|]. intros m [<-|[]]. lia.
  - destruct (IH (Z.max first x)) as [Hin Hmax]. split.
    + destruct Hin as [Heq|Hin]; [|right; now right].
      rewrite <- Heq. destruct (Z.max_spec first x) as [[_ ->]|[_ ->]];
        [right; now left | now left].
    + intros m [Heq|[Heq|Hm]].
      * specialize (Hmax (Z.max first x) ltac:(now left)). lia.
      * specialize (Hmax (Z.max first x) ltac:(now left)). lia.
      * apply Hmax. now right.
Qed.

Lemma run_cases toNumber n ms ds :
  0 <= n <= 30 ->
  let all := parseList toNumber ms ++ parseList toNumber ds in
  ((exists m, In m all /\ m < 0) /\ run toNumber n ms ds = NotNonNegative)
  \/ ((forall m, In m all -> 0 <= m)
      /\ exists mx, In mx all /\ (forall m, In m all -> m <= mx) /\ 2 ^ n - 1 < mx
                    /\ run toNumber n ms ds = IndexOutOfRange mx (2 ^ n - 1))
  \/ ((forall m, In m all -> 0 <= m < 2 ^ n)
      /\ run toNumber n ms ds =
         Request n (parseList toNumber ms) (parseList toNumber ds)).
Proof.
  intros Hn all. unfold run. fold all.
  destruct (existsb (fun m => negb (isInteger m) || (m <? 0)) all) eqn:Hneg.
  - left. split; [now apply some_negative|reflexivity].
  - right.
    assert (forall m, In m all -> 0 <= m) as Hpos.
    { intros m Hm. destruct (Z.lt_ge_cases m 0) as [Hlt|]; [|assumption].
      assert (existsb (fun m => negb (isInteger m) || (m <? 0)) all = true) as Habs
        by (apply some_negative; eauto).
      congruence. }
    destruct all as [|first rest] eqn:Hall.
    + right. split; [intros m []|reflexivity].
    + rewrite shl_one by assumption.
      destruct (mathMax_spec rest first) as [Hin Hmax].
      destruct (Z.ltb_spec (2 ^ n - 1) (mathMax first rest)) as [Hbig|Hsmall].
      * left. split; [assumption|]. exists (mathMax first rest). auto.
      * right. split; [|reflexivity]. intros m Hm.
        specialize (Hmax m Hm). specialize (Hpos m Hm). lia.
Qed.

(** Property X12: for a number of inputs [n] between 0 and 30, [run]
    sends the request exactly when every index read from the two fields
    lies in [[0, 2 ^ n)]; the request then carries [n] and the two lists
    as read.  Two blank fields are accepted. *)
Theorem run_sends_request_iff_indexes_in_domain toNumber n ms ds :
  0 <= n <= 30 ->
  (run toNumber n ms ds = Request n (parseList toNumber ms) (parseList toNumber ds)
   <-> forall m, In m (parseList toNumber ms ++ parseList toNumber ds) ->
                 0 <= m < 2 ^ n)
  /\ (forall n' mts dcs,
        run toNumber n ms ds = Request n' mts dcs ->
        n' = n /\ mts = parseList toNumber ms /\ dcs = parseList toNumber ds).
Proof.
  intros Hn.
  destruct (run_cases toNumber n ms ds Hn)
    as [[[m [Hin Hm]] Hrun]|[[Hpos [mx [Hin [Hmax [Hbig Hrun]]]]]|[Hdom Hrun]]];
    rewrite Hrun.
  - split; [split; [discriminate|]|discriminate].
    intros Hdom. specialize (Hdom m Hin). lia.
  - split; [split; [discriminate|]|discriminate].
    intros Hdom. specialize (Hdom mx Hin). lia.
  - split; [split; [intros _; exact Hdom | reflexivity]|].
    intros n' mts dcs [= <- <- <-]. repeat split.
Qed.

Lemma run_sends_request_iff_indexes_in_domain_witness :
  run roundToDouble 4 "0,2,5,7,8,10,13,15" "" =
  Request 4 [0; 2; 5; 7; 8; 10; 13; 15] [].
Proof.
  destruct (run_sends_request_iff_indexes_in_domain
              roundToDouble 4 "0,2,5,7,8,10,13,15" "") as [[_ Hreq] _].
  - lia.
  - apply Hreq.
    assert (parseList roundToDouble "0,2,5,7,8,10,13,15" ++ parseList roundToDouble ""
            = [0; 2; 5; 7; 8; 10; 13; 15]) as -> by reflexivity.
    intros m Hm. simpl in Hm. lia.
Defined.

(** Property X13: [run] reports the non-negativity error exactly when
    some index read from the fields is negative, whatever the other
    indexes are; it reports the range error exactly when no index is
    negative and the largest one exceeds [2 ^ n - 1], and the error carries
    that largest index and the bound [2 ^ n - 1]. *)
Theorem run_reports_negative_then_largest_index toNumber n ms ds :
  0 <= n <= 30 ->
  (run toNumber n ms ds = NotNonNegative
   <-> exists m, In m (parseList toNumber ms ++ parseList toNumber ds) /\ m < 0)
  /\ (forall maxIndex maxAllowed,
        run toNumber n ms ds = IndexOutOfRange maxIndex maxAllowed
        <-> (forall m, In m (parseList toNumber ms ++ parseList toNumber ds) -> 0 <= m)
            /\ In maxIndex (parseList toNumber ms ++ parseList toNumber ds)
            /\ (forall m, In m (parseList toNumber ms ++ parseList toNumber ds) ->
                          m <= maxIndex)
            /\ maxAllowed = 2 ^ n - 1
            /\ maxAllowed < maxIndex).
Proof.
  intros Hn.
  destruct (run_cases toNumber n ms ds Hn)
    as [[[m [Hin Hm]] Hrun]|[[Hpos [mx [Hin [Hmax [Hbig Hrun]]]]]|[Hdom Hrun]]];
    rewrite Hrun.
  - split; [split; [eauto|reflexivity]|].
    intros maxIndex maxAllowed. split; [discriminate|].
    intros [Hpos _]. specialize (Hpos m Hin). lia.
  - split.
    + split; [discriminate|]. intros [m [Hm Hneg]]. specialize (Hpos m Hm). lia.
    + intros maxIndex maxAllowed. split.
      * intros [= <- <-]. auto.
      * intros [_ [Hin' [Hmax' [-> _]]]].
        specialize (Hmax maxIndex Hin'). specialize (Hmax' mx Hin).
        replace maxIndex with mx by lia. reflexivity.
  - split.
    + split; [discriminate|]. intros [m [Hm Hneg]]. specialize (Hdom m Hm). lia.
    + intros maxIndex maxAllowed. split; [discriminate|].
      intros [_ [Hin' [_ [-> Hbig]]]]. specialize (Hdom maxIndex Hin'). lia.
Qed.

Lemma run_reports_negative_then_largest_index_witness :
  run roundToDouble 4 "0,16,40" "-1" = NotNonNegative
  /\ run roundToDouble 4 "0,16,40" "3" = IndexOutOfRange 40 15.
Proof.
  destruct (run_reports_negative_then_largest_index roundToDouble 4 "0,16,40" "-1")
    as [[_ Hneg] _]; [lia|].
  destruct (run_reports_negative_then_largest_index roundToDouble 4 "0,16,40" "3")
    as [_ Hrange]; [lia|].
  split.
  - apply Hneg. exists (-1).
    assert (parseList roundToDouble "0,16,40" ++ parseList roundToDouble "-1"
            = [0; 16; 40; -1]) as -> by reflexivity.
    simpl. lia.
  - apply Hrange.
    assert (parseList roundToDouble "0,16,40" ++ parseList roundToDouble "3"
            = [0; 16; 40; 3]) as -> by reflexivity.
    simpl. repeat split; intros; lia.
Defined.

(** ** From the fields to the grid *)

Lemma filter_all {A : Type} (q : A -> bool) l :
  (forall x, In x l -> q x = true) -> List.filter q l = l.
Proof.
  induction l as [|x l IH]; intros Hq; [reflexivity|].
  cbn [List.filter]. rewrite (Hq x) by now left.
  f_equal. apply IH. intros y Hy. apply Hq. now right.
Qed.

(** Property X14: for every number of inputs the page offers, when [run]
    accepts the two fields, the grid the page renders from the same fields
    shows ['1'] in exactly one cell for each distinct minterm entered and
    ['X'] in exactly one cell for each distinct don't-care entered that is
    not also a minterm. *)
Theorem accepted_fields_are_shown_in_the_grid toNumber st n ms ds imps mts dcs :
  In n numInputOptions ->
  run toNumber n ms ds = Request n mts dcs ->
  exists g,
    KMapGrid st (pageGridProps toNumber n ms ds imps) = JS.Normal (Some g)
    /\ Permutation (map minterm (cellsWithValue Val1 g)) (nodup Z.eq_dec mts)
    /\ Permutation (map minterm (cellsWithValue ValX g))
                   (nodup Z.eq_dec
                      (List.filter (fun m => negb (JS.includes mts m)) dcs)).
Proof.
  intros Hopt Hrun.
  assert (2 <= n <= 6) as Hn.
  { unfold numInputOptions in Hopt. simpl in Hopt. lia. }
  destruct (run_cases toNumber n ms ds ltac:(lia))
    as [[_ Hrun']|[[_ [mx [_ [_ [_ Hrun']]]]]|[Hdom Hrun']]];
    rewrite Hrun' in Hrun; try discriminate.
  injection Hrun as <- <-.
  set (p := pageGridProps toNumber n ms ds imps).
  assert (2 <= numInputs p <= 6) as Hn' by exact Hn.
  destruct (KMapGrid_valid st p Hn')
    as [g [Hg [Hr [Hc [_ [_ [Hrg [Hcg [_ [_ [_ Hcells]]]]]]]]]]].
  destruct (cells_by_value_Permutation st p g Hn' Hr Hc Hrg Hcg Hcells) as [Hon Hdc].
  exists g. split; [exact Hg|]. cbn [p pageGridProps numInputs minterms dontCares] in Hon, Hdc.
  split.
  - rewrite filter_all in Hon; [exact Hon|].
    intros m Hm. apply inDomain_spec. apply Hdom. apply in_or_app. now left.
  - erewrite filter_ext_in in Hdc; [exact Hdc|].
    intros m Hm. cbv beta.
    rewrite (proj2 (inDomain_spec n m)); [reflexivity|].
    apply Hdom. apply in_or_app. now right.
Qed.

Lemma accepted_fields_are_shown_in_the_grid_witness :
  exists g,
    KMapGrid exampleStore (pageGridProps roundToDouble 2 "3, 0" "1" [0%nat; 1%nat])
    = JS.Normal (Some g)
    /\ Permutation (map minterm (cellsWithValue Val1 g)) [3; 0].
Proof.
  destruct (accepted_fields_are_shown_in_the_grid
              roundToDouble exampleStore 2 "3, 0" "1" [0%nat; 1%nat] [3; 0] [1])
    as [g [Hg [Hon _]]].
  - simpl. tauto.
  - reflexivity.
  - exists g. split; [exact Hg | exact Hon].
Defined.
